(** * google-new-tab: the content script [content.js]

    A shallow embedding of the link rewriter [modifySearchResults] and of
    the two subscriptions that re-run it (the [MutationObserver] callback
    and the debounced scroll listener), with the properties of the
    behavioural specification proved against it.

    Layout:
    - [Str]       : [String.prototype.includes]
    - [Dom]       : elements, the element tree, paths as element references
    - [Css]       : the fragment of selectors used by the script and
                    [querySelectorAll]
    - [Rewriter]  : [modifySearchResults], instrumented with the list of
                    elements it writes to
    - [Loop]      : timers, [setTimeout]/[clearTimeout], the two handlers
    - [Shape]     : what a selector can tell apart
    - [Examples]  : a results page and a burst of events
    - [DomFacts], [CssFacts], [RewriterFacts], [RewriterSpec], [LoopFacts],
      [Witnesses] : the properties

    The model covers HTML anchors: [link.href] is a string, the resolved
    URL, which is taken from the platform as [resolveURL]. *)

From stdpp Require Import gmap strings list fin_maps.

Set Warnings "-clear-no-such-hyp".

Open Scope string_scope.
Open Scope list_scope.
Open Scope nat_scope.

(* ===================================================================== *)
(** ** Strings *)
(* ===================================================================== *)

Module Str.

(** [s.startsWith(needle)] *)
Fixpoint startsWith (needle s : string) : bool :=
  match needle, s with
  | EmptyString, _ => true
  | String _ _, EmptyString => false
  | String a needle', String b s' =>
      if Ascii.eqb a b then startsWith needle' s' else false
  end.

(** [s.includes(needle)]: [needle] occurs at some offset of [s]. *)
Fixpoint includes (needle s : string) : bool :=
  startsWith needle s ||
  match s with
  | EmptyString => false
  | String _ s' => includes needle s'
  end.

(** JS truthiness of a string value: only the empty string is falsy. *)
Definition truthy (s : string) : bool :=
  match s with EmptyString => false | String _ _ => true end.

End Str.

(* ===================================================================== *)
(** ** The document *)
(* ===================================================================== *)

Module Dom.

(** An element: its local name, its content attributes other than
    [class], and its class list (the tokens of the [class] attribute,
    in order). *)
Record element := Element {
  localName : string;
  attrs : gmap string string;
  classList : list string
}.

(** The element tree. Only elements are kept: the script never looks at
    text or comment nodes. *)
#[warnings="-register-all"]
Inductive node := Node (e : element) (children : list node).

Definition elem (n : node) : element := match n with Node e _ => e end.
Definition children (n : node) : list node := match n with Node _ cs => cs end.

(** A reference to an element: the child indices leading to it from the
    root. The script never changes the shape of the tree, so a path
    names the same element throughout. *)
Definition path := list nat.

Fixpoint lookup_path (p : path) (n : node) {struct p} : option element :=
  match p with
  | [] => Some (elem n)
  | i :: p' =>
      match children n !! i with
      | Some c => lookup_path p' c
      | None => None
      end
  end.

(** In-place update of the element a reference points to. *)
Fixpoint update_path (f : element → element) (p : path) (n : node)
  {struct p} : node :=
  match p with
  | [] => Node (f (elem n)) (children n)
  | i :: p' => Node (elem n) (alter (update_path f p') i (children n))
  end.

(** All elements of the tree, in document order. *)
Fixpoint elements (n : node) : list element :=
  match n with Node e cs => e :: flat_map elements cs end.

(** [el.getAttribute(name)] *)
Definition getAttribute (name : string) (e : element) : option string :=
  attrs e !! name.

(** [el.setAttribute(name, v)] for [name] other than [class]. *)
Definition setAttribute (name v : string) (e : element) : element :=
  {| localName := localName e;
     attrs := <[name := v]> (attrs e);
     classList := classList e |}.

(** [el.classList.contains(tok)] *)
Definition classList_contains (tok : string) (e : element) : bool :=
  bool_decide (tok ∈ classList e).

(** [el.classList.add(tok)]: the token is appended unless present. *)
Definition classList_add (tok : string) (e : element) : element :=
  {| localName := localName e;
     attrs := attrs e;
     classList := if classList_contains tok e then classList e
                  else classList e ++ [tok] |}.

End Dom.

Import Dom.

(* ===================================================================== *)
(** ** Selectors *)
(* ===================================================================== *)

Module Css.

Inductive simple_selector :=
| SelType (name : string)          (* [a]             *)
| SelClass (cls : string)          (* [.g]            *)
| SelAttr (name : string)          (* [[jsname]]      *)
| SelAttrSub (name sub : string).  (* [[href*="x"]]   *)

(** A compound selector is a conjunction of simple ones; a complex
    selector is a chain of compounds joined by the descendant
    combinator, written left to right as in the source; a selector list
    is a disjunction. *)
Definition compound := list simple_selector.
Definition complex := list compound.
Definition selector := list complex.

Definition matches_simple (s : simple_selector) (e : element) : bool :=
  match s with
  | SelType name => bool_decide (localName e = name)
  | SelClass cls => classList_contains cls e
  | SelAttr name => bool_decide (is_Some (getAttribute name e))
  | SelAttrSub name sub =>
      match getAttribute name e with
      | Some v => Str.truthy sub && Str.includes sub v
      | None => false
      end
  end.

Definition matches_compound (c : compound) (e : element) : bool :=
  forallb (λ s, matches_simple s e) c.

(** [rest] are the compounds to the left of the subject, nearest first;
    [anc] the ancestors of the subject, nearest first. *)
Fixpoint matches_ancestors (rest : list compound) (anc : list element) : bool :=
  match rest with
  | [] => true
  | c :: rest' =>
      (fix find (anc : list element) : bool :=
         match anc with
         | [] => false
         | a :: anc' =>
             if matches_compound c a then matches_ancestors rest' anc'
             else find anc'
         end) anc
  end.

Definition matches_complex (cx : complex) (anc : list element) (e : element) : bool :=
  match rev cx with
  | [] => false
  | subject :: rest => matches_compound subject e && matches_ancestors rest anc
  end.

Definition matches (sel : selector) (anc : list element) (e : element) : bool :=
  existsb (λ cx, matches_complex cx anc e) sel.

(** Paths of the matches among the children, the [i]-th child first. *)
Fixpoint in_children (f : node → list path) (i : nat) (cs : list node) : list path :=
  match cs with
  | [] => []
  | c :: cs' => map (cons i) (f c) ++ in_children f (S i) cs'
  end.

(** Matches in the subtree [n] whose root has ancestors [anc], in
    document order. *)
Fixpoint qsa_node (sel : selector) (anc : list element) (n : node) : list path :=
  match n with
  | Node e cs =>
      (if matches sel anc e then [[]] else []) ++
      in_children (qsa_node sel (e :: anc)) 0 cs
  end.

(** [document.querySelectorAll(sel)]: a static list of references. *)
Definition querySelectorAll (sel : selector) (document : node) : list path :=
  qsa_node sel [] document.

End Css.

Import Css.

(* ===================================================================== *)
(** ** The link rewriter *)
(* ===================================================================== *)

Module Rewriter.
Section Rewriter.

(** The platform's URL resolution of an [href] attribute value against
    the document base (the value itself when it does not parse). *)
Variable resolveURL : string → string.

Definition marker : string := "modified-by-extension".

(** [link.href]: the resolved URL, or the empty string without an
    [href] attribute. *)
Definition href (link : element) : string :=
  match getAttribute "href" link with
  | Some v => resolveURL v
  | None => EmptyString
  end.

(** ['a[href*="/url?q="], a[jsname], .g h3 a, .yuRUbf a'] *)
Definition searchLinks_selector : selector :=
  [ [ [SelType "a"; SelAttrSub "href" "/url?q="] ];
    [ [SelType "a"; SelAttr "jsname"] ];
    [ [SelClass "g"]; [SelType "h3"]; [SelType "a"] ];
    [ [SelClass "yuRUbf"]; [SelType "a"] ] ].

(** ['a[href*="/imgres"]'] *)
Definition imageLinks_selector : selector :=
  [ [ [SelType "a"; SelAttrSub "href" "/imgres"] ] ].

(** The condition of the first loop. *)
Definition eligible_search (link : element) : bool :=
  Str.truthy (href link) &&
  negb (Str.includes "google.com/search" (href link)) &&
  negb (Str.includes "#" (href link)) &&
  negb (classList_contains marker link).

(** The condition of the second loop. *)
Definition eligible_image (link : element) : bool :=
  negb (classList_contains marker link).

(** The three statements both loop bodies share. *)
Definition open_in_new_tab (link : element) : element :=
  let link := setAttribute "target" "_blank" link in
  let link := setAttribute "rel" "noopener noreferrer" link in
  classList_add marker link.

(** A marked element that has both attributes as the rewriter sets
    them, and the same for a whole document. *)
Definition consistent (link : element) : bool :=
  negb (classList_contains marker link) ||
  (bool_decide (getAttribute "target" link = Some "_blank") &&
   bool_decide (getAttribute "rel" link = Some "noopener noreferrer")).

Definition marked_consistent (d : node) : bool :=
  forallb consistent (elements d).

(** One iteration: the document after it, and the references written
    to (none or [p]). *)
Definition rewrite_if (cond : element → bool) (p : path) (d : node)
  : node * list path :=
  match lookup_path p d with
  | Some link =>
      if cond link then (update_path open_in_new_tab p d, [p]) else (d, [])
  | None => (d, [])
  end.

(** [links.forEach(body)], collecting the writes. *)
Fixpoint forEach (body : path → node → node * list path)
  (links : list path) (d : node) : node * list path :=
  match links with
  | [] => (d, [])
  | p :: links' =>
      let '(d1, w1) := body p d in
      let '(d2, w2) := forEach body links' d1 in
      (d2, w1 ++ w2)
  end.

Definition searchPass (d : node) : node * list path :=
  let searchLinks := querySelectorAll searchLinks_selector d in
  forEach (rewrite_if eligible_search) searchLinks d.

Definition imagePass (d : node) : node * list path :=
  let imageLinks := querySelectorAll imageLinks_selector d in
  forEach (rewrite_if eligible_image) imageLinks d.

(** [modifySearchResults()] with the references each pass wrote to. *)
Definition modifySearchResults_trace (d : node) : node * (list path * list path) :=
  let '(d1, w1) := searchPass d in
  let '(d2, w2) := imagePass d1 in
  (d2, (w1, w2)).

Definition modifySearchResults (d : node) : node :=
  (modifySearchResults_trace d).1.

(** All references written to by one call, in order. *)
Definition mutated (d : node) : list path :=
  let '(_, (w1, w2)) := modifySearchResults_trace d in w1 ++ w2.

(** [n] successive calls on a document nothing else touches, with the
    writes of all of them. *)
Fixpoint repeat_calls (n : nat) (d : node) : node * list path :=
  match n with
  | 0 => (d, [])
  | S n' =>
      let '(d', w) := repeat_calls n' (modifySearchResults d) in
      (d', mutated d ++ w)
  end.

End Rewriter.
End Rewriter.

(* ===================================================================== *)
(** ** Timers and the two subscriptions *)
(* ===================================================================== *)

Module Loop.

Inductive mutation_type := Attributes | CharacterData | ChildList.

#[export] Instance mutation_type_eq_dec : EqDecision mutation_type.
Proof. solve_decision. Defined.

Record MutationRecord := {
  mtype : mutation_type;
  addedNodes : list node;
  removedNodes : list node
}.

(** The [setTimeout] call a timer comes from. Both calls pass the same
    callback, [modifySearchResults]; the call site is kept to tell the
    rescans of the two subscriptions apart. *)
Inductive site := FromObserver | FromScroll.

#[export] Instance site_eq_dec : EqDecision site.
Proof. solve_decision. Defined.

Record timer := Timer {
  timer_id : nat;
  timer_due : nat;      (* ms on the page clock *)
  timer_site : site
}.

Section Loop.

Variable resolveURL : string → string.

(** The page as the script sees it. Time is the page clock in ms; a
    timer's callback runs when the clock reaches its due time. *)
Record state := State {
  document : node;
  now : nat;
  timers : list timer;            (* active timers, in firing order *)
  next_id : nat;                  (* timer ids are never reused *)
  scrollTimeout : option nat;     (* [let scrollTimeout;] ([None]: undefined) *)
  rescans : list (nat * site)     (* deferred calls made so far: when, from where *)
}.

(** A new timer fires after the active ones that are due no later. *)
Fixpoint enqueue (tm : timer) (l : list timer) : list timer :=
  match l with
  | [] => [tm]
  | x :: l' =>
      if timer_due tm <? timer_due x then tm :: x :: l'
      else x :: enqueue tm l'
  end.

(** [setTimeout(modifySearchResults, delay)]: the id and the new state. *)
Definition setTimeout (delay : nat) (from : site) (s : state) : nat * state :=
  let id := next_id s in
  (id,
   {| document := document s;
      now := now s;
      timers := enqueue (Timer id (now s + delay) from) (timers s);
      next_id := S id;
      scrollTimeout := scrollTimeout s;
      rescans := rescans s |}).

(** [clearTimeout(h)]: nothing happens for [undefined] or for an id
    that is not active. *)
Definition clearTimeout (h : option nat) (s : state) : state :=
  match h with
  | None => s
  | Some id =>
      {| document := document s;
         now := now s;
         timers := filter (λ tm, timer_id tm ≠ id) (timers s);
         next_id := next_id s;
         scrollTimeout := scrollTimeout s;
         rescans := rescans s |}
  end.

Definition set_scrollTimeout (id : nat) (s : state) : state :=
  {| document := document s;
     now := now s;
     timers := timers s;
     next_id := next_id s;
     scrollTimeout := Some id;
     rescans := rescans s |}.

(** The scroll listener. *)
Definition on_scroll (s : state) : state :=
  let s := clearTimeout (scrollTimeout s) s in
  let '(id, s) := setTimeout 200 FromScroll s in
  set_scrollTimeout id s.

(** The test of the observer's inner loop. *)
Definition adds_nodes (mutation : MutationRecord) : bool :=
  bool_decide (mtype mutation = ChildList) &&
  (0 <? length (addedNodes mutation)).

(** The flag after [mutations.forEach(...)]. *)
Definition shouldModify (mutations : list MutationRecord) : bool :=
  foldl (λ flag mutation, if adds_nodes mutation then true else flag)
        false mutations.

(** The [MutationObserver] callback. *)
Definition on_mutations (mutations : list MutationRecord) (s : state) : state :=
  if shouldModify mutations then (setTimeout 100 FromObserver s).2 else s.

(** A timer's callback runs: one call of [modifySearchResults]. *)
Definition fire (s : state) (tm : timer) : state :=
  {| document := Rewriter.modifySearchResults resolveURL (document s);
     now := timer_due tm `max` now s;
     timers := timers s;
     next_id := next_id s;
     scrollTimeout := scrollTimeout s;
     rescans := rescans s ++ [(timer_due tm, timer_site tm)] |}.

Definition is_due (t : nat) (tm : timer) : bool := timer_due tm <=? t.

(** The clock reaches [t]: the timers due by then fire in order. The
    callback sets no timer, so the ones left are those due later. *)
Definition advance (t : nat) (s : state) : state :=
  let ready := List.filter (is_due t) (timers s) in
  let later := List.filter (λ tm, negb (is_due t tm)) (timers s) in
  let s := foldl fire
             {| document := document s; now := now s; timers := later;
                next_id := next_id s; scrollTimeout := scrollTimeout s;
                rescans := rescans s |} ready in
  {| document := document s;
     now := t `max` now s;
     timers := timers s;
     next_id := next_id s;
     scrollTimeout := scrollTimeout s;
     rescans := rescans s |}.

Inductive event :=
| Scroll
| Mutations (batch : list MutationRecord).

Definition handle (ev : event) (s : state) : state :=
  match ev with
  | Scroll => on_scroll s
  | Mutations batch => on_mutations batch s
  end.

(** Events with the clock time they arrive at, in order. *)
Fixpoint run (trace : list (nat * event)) (s : state) : state :=
  match trace with
  | [] => s
  | (t, ev) :: trace' => run trace' (handle ev (advance t s))
  end.

(** The script body: the first call, then the two subscriptions. *)
Definition start (d : node) : state :=
  {| document := Rewriter.modifySearchResults resolveURL d;
     now := 0;
     timers := [];
     next_id := 1;
     scrollTimeout := None;
     rescans := [] |}.

(** Active timers set by the scroll listener. *)
Definition scroll_timers (s : state) : list timer :=
  List.filter (λ tm, bool_decide (timer_site tm = FromScroll)) (timers s).

(** Times of the rescans made for the scroll listener. *)
Definition scroll_rescans (s : state) : list nat :=
  (List.filter (λ r, bool_decide (r.2 = FromScroll)) (rescans s)).*1.

(** Every active scroll timer is the one [scrollTimeout] holds. *)
Definition scroll_owned (s : state) : bool :=
  forallb (λ tm, match timer_site tm with
                 | FromScroll => bool_decide (scrollTimeout s = Some (timer_id tm))
                 | FromObserver => true
                 end) (timers s).



End Loop.
End Loop.

(* ===================================================================== *)
(** ** What a selector can see *)
(* ===================================================================== *)

Module Shape.

(** Two elements no compound of [cs] tells apart. *)
Definition agree_on (cs : list compound) (e1 e2 : element) : Prop :=
  ∀ c, c ∈ cs → matches_compound c e1 = matches_compound c e2.

(** All compounds of a selector list. *)
Definition compounds (sel : selector) : list compound := concat sel.

(** Two trees of the same shape whose elements are related pointwise. *)
#[warnings="-register-all"]
Inductive similar (R : element → element → Prop) : node → node → Prop :=
| similar_Node e1 e2 cs1 cs2 :
    R e1 e2 → Forall2 (similar R) cs1 cs2 →
    similar R (Node e1 cs1) (Node e2 cs2).

(** A simple selector that reads none of what the rewriter writes: not
    the marker class, not the [target] and [rel] attributes. *)
Definition blind_simple (s : simple_selector) : bool :=
  match s with
  | SelType _ => true
  | SelClass cls => bool_decide (cls ≠ Rewriter.marker)
  | SelAttr name | SelAttrSub name _ =>
      bool_decide (name ≠ "target") && bool_decide (name ≠ "rel")
  end.

Definition blind (sel : selector) : bool :=
  forallb (forallb blind_simple) (compounds sel).

End Shape.

Import Shape.

(* ===================================================================== *)
(** ** A results page to run the script on *)
(* ===================================================================== *)

Module Examples.
Import Rewriter Loop.

(** Resolution against the base [https://www.google.com] for the two
    kinds of value used below: absolute URLs and absolute paths. *)
Definition resolve (v : string) : string :=
  if Str.startsWith "/" v then "https://www.google.com" +:+ v else v.

Definition div (classes : list string) : element := Element "div" ∅ classes.
Definition h3 : element := Element "h3" ∅ [].

(** An organic result: [<div class="g"><h3><a href=...>]. *)
Definition result_link : element :=
  Element "a" {[ "href" := "https://example.com/page" ]} [].

(** A link back to the engine's own search endpoint. *)
Definition self_link : element :=
  Element "a" {[ "href" := "/search?q=x"; "jsname" := "UWckNb" ]} [].

Definition fragment_link : element :=
  Element "a" {[ "href" := "https://example.com/page#section";
                 "jsname" := "UWckNb" ]} [].

(** An image result that is also a link to the search endpoint with a
    fragment. *)
Definition image_link : element :=
  Element "a" {[ "href" := "/search?q=x#/imgres?imgurl=a.png";
                 "rel" := "nofollow" ]} ["thumb"].

(** An image result that carries [jsname] as well. *)
Definition tagged_image_link : element :=
  Element "a" {[ "href" := "/imgres?imgurl=b.png"; "jsname" := "sTFXNd" ]} [].

(** A result marked earlier whose [target] and [rel] were removed
    since. *)
Definition stale_link : element :=
  Element "a" {[ "href" := "/imgres?imgurl=c.png"; "jsname" := "UWckNb" ]}
          [marker].

Definition page : node :=
  Node (div [])
    [ Node (div ["g"]) [ Node h3 [ Node result_link [] ] ];
      Node self_link [];
      Node fragment_link [];
      Node image_link [];
      Node tagged_image_link [] ].

Definition stale_page : node :=
  Node (div []) [ Node result_link []; Node stale_link [] ].

Definition added : MutationRecord :=
  {| mtype := ChildList; addedNodes := [Node result_link []]; removedNodes := [] |}.

(** Scroll events at 10, 50 and 220 ms with a mutation batch in
    between. *)
Definition burst_tail : list (nat * event) :=
  [ (50, Scroll); (120, Mutations [added]); (220, Scroll) ].

End Examples.

(* ===================================================================== *)
(** ** Ancestors, and what a call leaves alone *)
(* ===================================================================== *)

Module Ancestry.

(** The ancestors of the element behind [p], nearest first, on top of
    [anc], the ancestors of the root of [n]. *)
Fixpoint ancestors_from (anc : list element) (p : path) (n : node)
  {struct p} : list element :=
  match p with
  | [] => anc
  | i :: p' =>
      match children n !! i with
      | Some c => ancestors_from (elem n :: anc) p' c
      | None => anc
      end
  end.

Definition ancestors (p : path) (document : node) : list element :=
  ancestors_from [] p document.

(** An element without what the rewriter writes: the attributes other
    than [target] and [rel], the classes other than the marker. *)
Definition untouched_part (e : element) : string * gmap string string * list string :=
  (localName e,
   delete "target" (delete "rel" (attrs e)),
   List.filter (λ tok, negb (bool_decide (tok = Rewriter.marker))) (classList e)).

(** The URL part of the first loop's condition (lines 38 to 40). *)
Definition url_eligible (resolveURL : string → string) (link : element) : bool :=
  Str.truthy (Rewriter.href resolveURL link) &&
  negb (Str.includes "google.com/search" (Rewriter.href resolveURL link)) &&
  negb (Str.includes "#" (Rewriter.href resolveURL link)).

End Ancestry.

Import Ancestry.

(* ===================================================================== *)
(** ** Runs of the script, and the page adding content *)
(* ===================================================================== *)

Module Trace.
Import Loop.

(** Active timers set by the observer callback, and the times of the
    rescans made for it. *)
Definition observer_timers (s : state) : list timer :=
  List.filter (λ tm, bool_decide (timer_site tm = FromObserver)) (timers s).

Definition observer_rescans (s : state) : list nat :=
  (List.filter (λ r, bool_decide (r.2 = FromObserver)) (rescans s)).*1.

(** Timer ids in use are below [next_id], and so is the id in
    [scrollTimeout], which no observer timer has. *)
Definition timers_fresh (s : state) : bool :=
  forallb (λ tm, timer_id tm <? next_id s) (timers s) &&
  match scrollTimeout s with
  | None => true
  | Some id =>
      (id <? next_id s) &&
      forallb (λ tm, negb (bool_decide (timer_id tm = id)) ||
                     bool_decide (timer_site tm = FromScroll)) (timers s)
  end.

(** The events come in order of time, none before [prev]. *)
Fixpoint ordered (prev : nat) (trace : list (nat * event)) : bool :=
  match trace with
  | [] => true
  | (t, _) :: trace' => (prev <=? t) && ordered t trace'
  end.

(** When the scroll events of a trace happen, and when its batches that
    add nodes arrive. *)
Fixpoint scroll_times (trace : list (nat * event)) : list nat :=
  match trace with
  | [] => []
  | (t, Scroll) :: trace' => t :: scroll_times trace'
  | (_, Mutations _) :: trace' => scroll_times trace'
  end.

Fixpoint batch_times (trace : list (nat * event)) : list nat :=
  match trace with
  | [] => []
  | (_, Scroll) :: trace' => batch_times trace'
  | (t, Mutations batch) :: trace' =>
      if shouldModify batch then t :: batch_times trace' else batch_times trace'
  end.

(** A rescan at [r] is 200ms after a scroll event of [h], with no
    scroll event of [h] in between. *)
Definition quiet (h : list nat) (r : nat) : Prop :=
  200 ≤ r ∧ (r - 200) ∈ h ∧ ∀ t, t ∈ h → ¬ (r - 200 < t ∧ t < r).

(** The subtree behind a reference. *)
Fixpoint lookup_node (p : path) (n : node) {struct p} : option node :=
  match p with
  | [] => Some n
  | i :: p' =>
      match children n !! i with
      | Some c => lookup_node p' c
      | None => None
      end
  end.

(** [parent.appendChild(c)] for the element behind [p]. *)
Fixpoint appendChild (c : node) (p : path) (n : node) {struct p} : node :=
  match p with
  | [] => Node (elem n) (children n ++ [c])
  | i :: p' => Node (elem n) (alter (appendChild c p') i (children n))
  end.

(** The page appends [c] under the element behind [p]; the observer is
    called with the one record of this change. *)
Definition page_appends (c : node) (p : path) (s : state) : state :=
  on_mutations
    [ {| mtype := ChildList; addedNodes := [c]; removedNodes := [] |} ]
    {| document := appendChild c p (document s);
       now := now s;
       timers := timers s;
       next_id := next_id s;
       scrollTimeout := scrollTimeout s;
       rescans := rescans s |}.

End Trace.

Import Trace.

(* ===================================================================== *)
(** ** Content the page adds later *)
(* ===================================================================== *)

Module MoreExamples.
Import Loop Examples.

(** A result that arrives with infinite scroll. *)
Definition late_link : element :=
  Element "a" {[ "href" := "https://example.org/more"; "jsname" := "UWckNb" ]} [].

Definition late_result : node := Node late_link [].

(** Two scroll bursts and two batches, the first without added nodes. *)
Definition removed : MutationRecord :=
  {| mtype := ChildList; addedNodes := []; removedNodes := [late_result] |}.

Definition session : list (nat * event) :=
  [ (10, Scroll); (50, Scroll); (120, Mutations [removed]);
    (130, Mutations [removed; added]); (600, Scroll); (900, Mutations [added]) ].

End MoreExamples.

(* ===================================================================== *)
(** * Properties *)
(* ===================================================================== *)

(** ** References into the tree *)

Module DomFacts.

(** Induction over the tree with the hypothesis for every child. *)
Lemma node_ind' (P : node → Prop) :
  (∀ e cs, Forall P cs → P (Node e cs)) → ∀ n, P n.
Proof.
  intros H. fix IH 1. intros [e cs]. apply H.
  induction cs as [|c cs IHcs]; constructor; [apply IH | exact IHcs].
Qed.

Lemma lookup_update_eq f p n :
  lookup_path p (update_path f p n) = f <$> lookup_path p n.
Proof.
  revert n. induction p as [|i p IH]; intros n; simpl; [done|].
  rewrite list_lookup_alter_eq.
  destruct (children n !! i) as [c|]; simpl; [apply IH | done].
Qed.

Lemma lookup_update_ne f p q n :
  p ≠ q → lookup_path q (update_path f p n) = lookup_path q n.
Proof.
  revert q n. induction p as [|i p IH]; intros [|j q] n Hne; simpl; try done.
  destruct (decide (i = j)) as [->|Hij].
  - rewrite list_lookup_alter_eq.
    destruct (children n !! j) as [c|]; simpl; [|done].
    apply IH. congruence.
  - by rewrite list_lookup_alter_ne.
Qed.

(** The elements of a tree are what its references reach. *)
Lemma elements_lookup e n :
  e ∈ elements n ↔ ∃ p, lookup_path p n = Some e.
Proof.
  split.
  - revert e. induction n as [e0 cs IH] using node_ind'. intros e.
    simpl. intros [->|Hin]%elem_of_cons.
    + by exists [].
    + apply list_elem_of_In, in_flat_map in Hin as (c & Hc & He).
      apply list_elem_of_In in Hc, He.
      apply list_elem_of_lookup in Hc as Hi. destruct Hi as [i Hi].
      rewrite Forall_forall in IH.
      destruct (IH c Hc e He) as [p Hp].
      exists (i :: p). simpl. by rewrite Hi.
  - intros [p Hp]. revert n Hp. induction p as [|i p IH]; intros [e0 cs]; simpl.
    + intros [= ->]. by left.
    + destruct (cs !! i) as [c|] eqn:Hi; [|done]. intros Hp.
      right. apply list_elem_of_In, in_flat_map. exists c.
      split; apply list_elem_of_In; [by eapply list_elem_of_lookup_2 | by apply IH].
Qed.

Lemma lookup_update f p q n :
  lookup_path q (update_path f p n) =
  if decide (p = q) then f <$> lookup_path q n else lookup_path q n.
Proof.
  case_decide as H; [subst; apply lookup_update_eq | by apply lookup_update_ne].
Qed.

End DomFacts.

(** ** Selection only depends on what the selector can see *)

Module CssFacts.

Section Agree.
Variable cs : list compound.

Lemma agree_on_refl e : agree_on cs e e.
Proof. by intros c _. Qed.

Lemma agree_on_trans e1 e2 e3 :
  agree_on cs e1 e2 → agree_on cs e2 e3 → agree_on cs e1 e3.
Proof. intros H12 H23 c Hc. by rewrite H12, H23. Qed.

Lemma matches_ancestors_agree rest anc1 anc2 :
  rest ⊆ cs → Forall2 (agree_on cs) anc1 anc2 →
  matches_ancestors rest anc1 = matches_ancestors rest anc2.
Proof.
  revert anc1 anc2. induction rest as [|c rest IH]; intros anc1 anc2 Hsub Hanc; [done|].
  assert (c ∈ cs) as Hc by (apply Hsub; left).
  assert (rest ⊆ cs) as Hrest by (intros x Hx; apply Hsub; by right).
  induction Hanc as [|a1 a2 anc1 anc2 Ha Hanc IHanc]; [done|].
  simpl. rewrite (Ha c Hc).
  destruct (matches_compound c a2); [by apply IH | apply IHanc].
Qed.
End Agree.

Lemma matches_agree sel anc1 anc2 e1 e2 :
  agree_on (compounds sel) e1 e2 →
  Forall2 (agree_on (compounds sel)) anc1 anc2 →
  matches sel anc1 e1 = matches sel anc2 e2.
Proof.
  intros He Hanc. unfold matches.
  assert (∀ cx, cx ∈ sel → cx ⊆ compounds sel) as Hin.
  { intros cx Hcx c Hc. apply list_elem_of_In, in_concat.
    exists cx. split; by apply list_elem_of_In. }
  revert Hin. generalize (compounds sel) He Hanc. clear.
  intros cs He Hanc.
  induction sel as [|cx sel IH]; intros Hin; [done|].
  simpl. f_equal.
  - assert (cx ⊆ cs) as Hcx by (apply Hin; left).
    unfold matches_complex.
    destruct (rev cx) as [|subject rest] eqn:Hrev; [done|].
    assert (∀ c, c ∈ subject :: rest → c ∈ cs) as Hall.
    { intros c Hc. apply Hcx. rewrite <- Hrev in Hc.
      apply list_elem_of_In, in_rev. by apply list_elem_of_In. }
    rewrite (He subject) by (apply Hall; left). f_equal.
    apply (matches_ancestors_agree cs); [|done].
    intros c Hc. apply Hall. by right.
  - apply IH. intros cx' Hcx'. apply Hin. by right.
Qed.

Lemma similar_refl (R : element → element → Prop) :
  (∀ e, R e e) → ∀ n, similar R n n.
Proof.
  intros HR. induction n as [e cs IH] using DomFacts.node_ind'.
  constructor; [done|]. by apply Forall_Forall2_diag.
Qed.

(** Updating an element by a function that keeps it related keeps the
    trees similar. *)
Lemma similar_update (R : element → element → Prop) f p n0 n :
  (∀ e0 e, R e0 e → R e0 (f e)) →
  similar R n0 n → similar R n0 (update_path f p n).
Proof.
  intros Hf. revert n0 n. induction p as [|i p IH]; intros n0 n Hsim.
  - destruct Hsim as [e1 e2 cs1 cs2 He Hcs]. simpl. constructor; auto.
  - destruct Hsim as [e1 e2 cs1 cs2 He Hcs]. simpl. constructor; [done|].
    apply Forall2_alter_r; [done|]. intros x y _ _ Hxy. by apply IH.
Qed.

Lemma in_children_similar (g1 g2 : node → list path) cs1 cs2 R i :
  Forall2 (λ c1 c2, similar R c1 c2 ∧ g1 c1 = g2 c2) cs1 cs2 →
  in_children g1 i cs1 = in_children g2 i cs2.
Proof.
  intros H. revert i. induction H as [|c1 c2 cs1 cs2 [_ Hc] _ IH]; intros i; [done|].
  simpl. by rewrite Hc, IH.
Qed.

(** Similar trees have the same matches. *)
Lemma qsa_node_similar sel n1 :
  ∀ n2 anc1 anc2,
    similar (agree_on (compounds sel)) n1 n2 →
    Forall2 (agree_on (compounds sel)) anc1 anc2 →
    qsa_node sel anc1 n1 = qsa_node sel anc2 n2.
Proof.
  induction n1 as [e1 cs1 IH] using DomFacts.node_ind'.
  intros n2 anc1 anc2 Hsim Hanc.
  inversion Hsim as [e1' e2 cs1' cs2 He Hcs]; subst. simpl.
  rewrite (matches_agree sel anc1 anc2 e1 e2 He Hanc). f_equal.
  apply (in_children_similar _ _ _ _ (agree_on (compounds sel))).
  clear Hsim. induction Hcs as [|c1 c2 cs1 cs2 Hc Hcs IHcs]; [constructor|].
  apply Forall_cons in IH as [IHc IHrest].
  constructor; [|by apply IHcs].
  split; [done|]. apply IHc; [done|]. by constructor.
Qed.

Lemma querySelectorAll_similar sel d1 d2 :
  similar (agree_on (compounds sel)) d1 d2 →
  querySelectorAll sel d1 = querySelectorAll sel d2.
Proof. intros H. by apply qsa_node_similar. Qed.

End CssFacts.

(** ** The rewriter, element by element *)

Module RewriterFacts.
Import Rewriter.

(** *** What the loop body does to one element *)

Lemma open_target link :
  getAttribute "target" (open_in_new_tab link) = Some "_blank".
Proof.
  unfold open_in_new_tab, getAttribute; simpl.
  rewrite lookup_insert_ne by done. apply lookup_insert_eq.
Qed.

Lemma open_rel link :
  getAttribute "rel" (open_in_new_tab link) = Some "noopener noreferrer".
Proof. unfold open_in_new_tab, getAttribute; simpl. apply lookup_insert_eq. Qed.

Lemma open_other_attr name link :
  name ≠ "target" → name ≠ "rel" →
  getAttribute name (open_in_new_tab link) = getAttribute name link.
Proof.
  intros Ht Hr. unfold open_in_new_tab, getAttribute; simpl.
  by rewrite !lookup_insert_ne.
Qed.

Lemma open_localName link : localName (open_in_new_tab link) = localName link.
Proof. done. Qed.

Lemma open_classList link :
  classList (open_in_new_tab link) =
  if classList_contains marker link then classList link
  else classList link ++ [marker].
Proof. done. Qed.

Lemma open_marked link : classList_contains marker (open_in_new_tab link) = true.
Proof.
  unfold classList_contains. rewrite open_classList.
  unfold classList_contains. apply bool_decide_eq_true.
  case_bool_decide; [done|]. apply elem_of_app. right. by left.
Qed.

Lemma open_other_class tok link :
  tok ≠ marker →
  classList_contains tok (open_in_new_tab link) = classList_contains tok link.
Proof.
  intros Hne. unfold classList_contains. rewrite open_classList.
  apply bool_decide_ext. destruct (classList_contains marker link); [done|].
  rewrite elem_of_app, list_elem_of_singleton. naive_solver.
Qed.

(** A selector that is [blind] matches the same before and after. *)
Lemma open_agree sel link :
  blind sel = true →
  agree_on (compounds sel) link (open_in_new_tab link).
Proof.
  unfold blind. rewrite forallb_forall. intros Hb c Hc.
  apply list_elem_of_In, Hb in Hc. unfold matches_compound.
  induction c as [|s c IH]; [done|]. simpl in *.
  apply andb_prop in Hc as [Hs Hc]. rewrite IH by done. f_equal.
  destruct s as [name|cls|name|name sub]; simpl in *.
  - done.
  - apply bool_decide_eq_true in Hs. symmetry. by apply open_other_class.
  - apply andb_prop in Hs as [Ht Hr].
    apply bool_decide_eq_true in Ht, Hr. by rewrite open_other_attr.
  - apply andb_prop in Hs as [Ht Hr].
    apply bool_decide_eq_true in Ht, Hr. by rewrite open_other_attr.
Qed.

(** *** [forEach] with a body that rewrites under a condition *)

Lemma forEach_cons body p ps d :
  forEach body (p :: ps) d =
  ((forEach body ps (body p d).1).1,
   (body p d).2 ++ (forEach body ps (body p d).1).2).
Proof.
  simpl. destruct (body p d) as [d1 w1]. simpl.
  by destruct (forEach body ps d1).
Qed.

Lemma rewrite_if_cases cond p d :
  (∃ link, lookup_path p d = Some link ∧ cond link = true ∧
     rewrite_if cond p d = (update_path open_in_new_tab p d, [p])) ∨
  ((∀ link, lookup_path p d = Some link → cond link = false) ∧
     rewrite_if cond p d = (d, [])).
Proof.
  unfold rewrite_if. destruct (lookup_path p d) as [link|] eqn:Hp.
  - destruct (cond link) eqn:Hc; [left; eauto|right].
    split; [|done]. by intros ? [= <-].
  - right. split; [|done]. by intros.
Qed.

Section ForEach.
Variable cond : element → bool.

Local Abbreviation loop := (forEach (rewrite_if cond)).

(** The references written to are the listed ones whose element
    satisfied the condition when the loop began. *)
Lemma forEach_written ps d q :
  q ∈ (loop ps d).2 ↔
  q ∈ ps ∧ ∃ link, lookup_path q d = Some link ∧ cond link = true.
Proof.
  revert d. induction ps as [|p ps IH]; intros d.
  - simpl. split; [by intros ?%elem_of_nil | by intros [?%elem_of_nil _]].
  - rewrite forEach_cons. simpl. rewrite elem_of_app, IH, elem_of_cons.
    destruct (rewrite_if_cases cond p d) as [(link & Hp & Hc & ->)|[Hno ->]]; simpl.
    + rewrite list_elem_of_singleton.
      destruct (decide (q = p)) as [->|Hne]; [naive_solver|].
      rewrite DomFacts.lookup_update_ne by done. naive_solver.
    + rewrite elem_of_nil. split.
      * intros [[]|[Hq Hl]]. split; [by right|done].
      * intros [[->|Hq] (link & Hl & Hc)]; [|right; eauto].
        by rewrite (Hno _ Hl) in Hc.
Qed.

(** Nothing written: nothing changed. *)
Lemma forEach_nil ps d : (loop ps d).2 = [] → (loop ps d).1 = d.
Proof.
  revert d. induction ps as [|p ps IH]; intros d; [done|].
  rewrite forEach_cons. simpl.
  destruct (rewrite_if_cases cond p d) as [(link & Hp & Hc & ->)|[Hno ->]]; simpl.
  - done.
  - apply IH.
Qed.

Lemma forEach_similar (R : element → element → Prop) ps d0 d :
  (∀ e0 e, R e0 e → R e0 (open_in_new_tab e)) →
  similar R d0 d → similar R d0 (loop ps d).1.
Proof.
  intros HR. revert d. induction ps as [|p ps IH]; intros d Hsim; [done|].
  rewrite forEach_cons. simpl. apply IH.
  destruct (rewrite_if_cases cond p d) as [(link & Hp & Hc & ->)|[Hno ->]]; simpl.
  - by apply CssFacts.similar_update.
  - done.
Qed.

Hypothesis cond_marked : ∀ link, cond (open_in_new_tab link) = false.

Lemma forEach_NoDup ps d : NoDup (loop ps d).2.
Proof.
  revert d. induction ps as [|p ps IH]; intros d; [constructor|].
  rewrite forEach_cons. simpl.
  destruct (rewrite_if_cases cond p d) as [(link & Hp & Hc & ->)|[Hno ->]]; simpl.
  - constructor; [|apply IH].
    rewrite forEach_written, DomFacts.lookup_update_eq, Hp. simpl.
    intros (_ & link' & [= <-] & Hc'). by rewrite cond_marked in Hc'.
  - apply IH.
Qed.

(** The element behind every reference after the loop. *)
Lemma forEach_lookup ps d q :
  lookup_path q (loop ps d).1 =
  if decide (q ∈ (loop ps d).2) then open_in_new_tab <$> lookup_path q d
  else lookup_path q d.
Proof.
  revert d. induction ps as [|p ps IH]; intros d.
  - destruct (decide _) as [H|H]; [by apply elem_of_nil in H|done].
  - pose proof (forEach_NoDup (p :: ps) d) as Hnd. revert Hnd.
    rewrite forEach_cons. simpl. rewrite IH.
    destruct (rewrite_if_cases cond p d) as [(link & Hp & Hc & ->)|[Hno ->]]; simpl.
    + intros [Hnotin _]%NoDup_cons.
      rewrite DomFacts.lookup_update.
      destruct (decide (q = p)) as [->|Hne].
      * rewrite (decide_False (P := p ∈ _)) by done.
        rewrite (decide_True (P := p = p)) by done.
        rewrite (decide_True (P := p ∈ p :: _)) by left. done.
      * rewrite (decide_False (P := p = q)) by done.
        destruct (decide (q ∈ _)) as [Hin|Hnin].
        -- rewrite decide_True by (by right). done.
        -- rewrite decide_False; [done|].
           intros [?|?]%elem_of_cons; done.
    + done.
Qed.
End ForEach.

End RewriterFacts.

(** ** The rewriter as a whole *)

Module RewriterSpec.
Import Rewriter RewriterFacts.

Section Spec.

Variable resolveURL : string → string.

Local Abbreviation href := (href resolveURL).
Local Abbreviation eligible_search := (eligible_search resolveURL).
Local Abbreviation searchPass := (searchPass resolveURL).
Local Abbreviation modifySearchResults_trace := (modifySearchResults_trace resolveURL).
Local Abbreviation modifySearchResults := (modifySearchResults resolveURL).
Local Abbreviation mutated := (mutated resolveURL).
Local Abbreviation repeat_calls := (repeat_calls resolveURL).

Lemma eligible_search_marked link :
  eligible_search (open_in_new_tab link) = false.
Proof.
  unfold Rewriter.eligible_search. rewrite open_marked. simpl.
  apply andb_false_r.
Qed.

Lemma eligible_image_marked link :
  eligible_image (open_in_new_tab link) = false.
Proof. unfold eligible_image. by rewrite open_marked. Qed.

Lemma eligible_search_unmarked link :
  eligible_search link = true → classList_contains marker link = false.
Proof.
  unfold Rewriter.eligible_search. intros [_ H]%andb_prop.
  by apply negb_true_iff in H.
Qed.

Lemma trace_unfold d :
  modifySearchResults_trace d =
  ((imagePass (searchPass d).1).1,
   ((searchPass d).2, (imagePass (searchPass d).1).2)).
Proof.
  unfold Rewriter.modifySearchResults_trace.
  destruct (Rewriter.searchPass resolveURL d) as [d1 w1]. simpl.
  by destruct (imagePass d1).
Qed.

Lemma modify_unfold d :
  modifySearchResults d = (imagePass (searchPass d).1).1.
Proof. unfold Rewriter.modifySearchResults. by rewrite trace_unfold. Qed.

Lemma mutated_unfold d :
  mutated d = (searchPass d).2 ++ (imagePass (searchPass d).1).2.
Proof. unfold Rewriter.mutated. by rewrite trace_unfold. Qed.

(** After the first pass. *)
Lemma searchPass_lookup d q :
  lookup_path q (searchPass d).1 =
  if decide (q ∈ (searchPass d).2) then open_in_new_tab <$> lookup_path q d
  else lookup_path q d.
Proof. apply forEach_lookup, eligible_search_marked. Qed.

Lemma searchPass_written d q :
  q ∈ (searchPass d).2 ↔
  q ∈ querySelectorAll searchLinks_selector d ∧
  ∃ link, lookup_path q d = Some link ∧ eligible_search link = true.
Proof. apply forEach_written. Qed.

Lemma imagePass_lookup d q :
  lookup_path q (imagePass d).1 =
  if decide (q ∈ (imagePass d).2) then open_in_new_tab <$> lookup_path q d
  else lookup_path q d.
Proof. apply forEach_lookup, eligible_image_marked. Qed.

Lemma imagePass_written d q :
  q ∈ (imagePass d).2 ↔
  q ∈ querySelectorAll imageLinks_selector d ∧
  ∃ link, lookup_path q d = Some link ∧ eligible_image link = true.
Proof. apply forEach_written. Qed.

(** What the first pass wrote to, the second leaves alone. *)
Lemma passes_write_apart d q :
  q ∈ (searchPass d).2 → q ∉ (imagePass (searchPass d).1).2.
Proof.
  intros H1 H2. apply imagePass_written in H2 as (_ & link & Hq & He).
  rewrite searchPass_lookup, decide_True in Hq by done.
  destruct (lookup_path q d) as [link0|]; [|done].
  injection Hq as <-. by rewrite eligible_image_marked in He.
Qed.

Lemma mutated_NoDup d : NoDup (mutated d).
Proof.
  rewrite mutated_unfold. apply NoDup_app. split_and!.
  - apply forEach_NoDup, eligible_search_marked.
  - apply passes_write_apart.
  - apply forEach_NoDup, eligible_image_marked.
Qed.

(** The element behind every reference after one call. *)
Lemma modify_lookup d q :
  lookup_path q (modifySearchResults d) =
  if decide (q ∈ mutated d) then open_in_new_tab <$> lookup_path q d
  else lookup_path q d.
Proof.
  rewrite modify_unfold, mutated_unfold, imagePass_lookup, searchPass_lookup.
  pose proof (passes_write_apart d q) as Hapart.
  destruct (decide (q ∈ (searchPass d).2)) as [H1|H1];
    destruct (decide (q ∈ (imagePass (searchPass d).1).2)) as [H2|H2].
  - by destruct Hapart.
  - by rewrite decide_True by (apply elem_of_app; by left).
  - by rewrite decide_True by (apply elem_of_app; by right).
  - rewrite decide_False; [done|]. by intros [?|?]%elem_of_app.
Qed.

(** A marked element is never written to. *)
Lemma marked_not_mutated d q link :
  lookup_path q d = Some link → classList_contains marker link = true →
  q ∉ mutated d.
Proof.
  intros Hq Hm. rewrite mutated_unfold.
  assert (q ∉ (searchPass d).2) as H1.
  { intros (_ & link' & Hq' & He)%searchPass_written.
    rewrite Hq in Hq'. injection Hq' as <-.
    apply eligible_search_unmarked in He. congruence. }
  intros [?|H2]%elem_of_app; [done|].
  apply imagePass_written in H2 as (_ & link' & Hq' & He).
  rewrite searchPass_lookup, decide_False, Hq in Hq' by done.
  injection Hq' as <-. unfold eligible_image in He.
  rewrite Hm in He. done.
Qed.

(** Both selectors are blind to what the rewriter writes, so the
    matches are the same before, between and after the passes. *)
Lemma searchLinks_blind : blind searchLinks_selector = true.
Proof. reflexivity. Qed.

Lemma imageLinks_blind : blind imageLinks_selector = true.
Proof. reflexivity. Qed.

Lemma loop_similar sel cond ps d0 d :
  blind sel = true →
  similar (agree_on (compounds sel)) d0 d →
  similar (agree_on (compounds sel)) d0 (forEach (rewrite_if cond) ps d).1.
Proof.
  intros Hb. apply forEach_similar. intros e0 e H.
  eapply CssFacts.agree_on_trans; [exact H|]. by apply open_agree.
Qed.

Lemma searchPass_matches sel d :
  blind sel = true →
  querySelectorAll sel (searchPass d).1 = querySelectorAll sel d.
Proof.
  intros Hb. symmetry. apply CssFacts.querySelectorAll_similar.
  apply loop_similar; [done|].
  apply CssFacts.similar_refl, CssFacts.agree_on_refl.
Qed.

Lemma modify_matches sel d :
  blind sel = true →
  querySelectorAll sel (modifySearchResults d) = querySelectorAll sel d.
Proof.
  intros Hb. symmetry. apply CssFacts.querySelectorAll_similar.
  rewrite modify_unfold. apply loop_similar; [done|].
  apply loop_similar; [done|].
  apply CssFacts.similar_refl, CssFacts.agree_on_refl.
Qed.

(** A second call finds nothing to write. *)
Lemma second_call_writes_nothing d :
  (searchPass (modifySearchResults d)).2 = [] ∧
  (imagePass (modifySearchResults d)).2 = [].
Proof.
  split; apply elem_of_nil_inv; intros q Hq.
  - apply searchPass_written in Hq as (Hsel & link & Hl & He).
    rewrite modify_matches in Hsel by apply searchLinks_blind.
    rewrite modify_lookup in Hl.
    destruct (decide (q ∈ mutated d)) as [Hm|Hm].
    + destruct (lookup_path q d); [|done]. injection Hl as <-.
      by rewrite eligible_search_marked in He.
    + apply Hm. rewrite mutated_unfold. apply elem_of_app. left.
      apply searchPass_written. eauto.
  - apply imagePass_written in Hq as (Hsel & link & Hl & He).
    rewrite modify_matches in Hsel by apply imageLinks_blind.
    rewrite modify_lookup in Hl.
    destruct (decide (q ∈ mutated d)) as [Hm|Hm].
    + destruct (lookup_path q d); [|done]. injection Hl as <-.
      by rewrite eligible_image_marked in He.
    + apply Hm. rewrite mutated_unfold. apply elem_of_app. right.
      apply imagePass_written.
      rewrite searchPass_matches by apply imageLinks_blind.
      split; [done|]. exists link. split; [|done].
      rewrite searchPass_lookup, decide_False; [done|].
      intros H1. apply Hm. rewrite mutated_unfold. apply elem_of_app. by left.
Qed.

Lemma modify_idempotent d :
  modifySearchResults (modifySearchResults d) = modifySearchResults d ∧
  mutated (modifySearchResults d) = [].
Proof.
  destruct (second_call_writes_nothing d) as [H1 H2].
  assert ((searchPass (modifySearchResults d)).1 = modifySearchResults d) as Hd1
    by (by apply forEach_nil).
  split.
  - rewrite (modify_unfold (modifySearchResults d)), Hd1. by apply forEach_nil.
  - by rewrite mutated_unfold, Hd1, H1, H2.
Qed.

Lemma repeat_calls_after n d :
  repeat_calls n (modifySearchResults d) = (modifySearchResults d, []).
Proof.
  induction n as [|n IH]; [done|]. simpl.
  destruct (modify_idempotent d) as [-> ->]. by rewrite IH.
Qed.

Lemma consistent_open link : consistent (open_in_new_tab link) = true.
Proof.
  unfold consistent. rewrite open_target, open_rel.
  rewrite !bool_decide_eq_true_2 by done. apply orb_true_r.
Qed.

Lemma modify_consistent d :
  marked_consistent d = true → marked_consistent (modifySearchResults d) = true.
Proof.
  unfold marked_consistent. rewrite !forallb_forall. intros H link Hin.
  apply list_elem_of_In, DomFacts.elements_lookup in Hin as [q Hq].
  rewrite modify_lookup in Hq.
  destruct (decide (q ∈ mutated d)).
  - destruct (lookup_path q d); [|done]. injection Hq as <-.
    apply consistent_open.
  - apply H, list_elem_of_In, DomFacts.elements_lookup. eauto.
Qed.

Lemma mutated_cases d q :
  q ∈ mutated d ↔
  (q ∈ querySelectorAll searchLinks_selector d ∧
   ∃ link, lookup_path q d = Some link ∧ eligible_search link = true) ∨
  (q ∈ querySelectorAll imageLinks_selector (searchPass d).1 ∧
   ∃ link, lookup_path q (searchPass d).1 = Some link ∧
           eligible_image link = true).
Proof.
  by rewrite mutated_unfold, elem_of_app, searchPass_written, imagePass_written.
Qed.

(** What is written to was there, unmarked, before the call. *)
Lemma mutated_unmarked d q :
  q ∈ mutated d →
  ∃ link, lookup_path q d = Some link ∧ classList_contains marker link = false.
Proof.
  intros Hq.
  destruct (lookup_path q d) as [link|] eqn:Hl.
  - exists link. split; [done|].
    destruct (classList_contains marker link) eqn:Hm; [|done].
    by destruct (marked_not_mutated d q link).
  - exfalso. apply mutated_cases in Hq as [(_ & link & H & _)|(_ & link & H & _)].
    + congruence.
    + rewrite searchPass_lookup, Hl in H. by destruct (decide _).
Qed.

(** Rewriting an unmarked element changes it. *)
Lemma open_changes link :
  classList_contains marker link = false → open_in_new_tab link ≠ link.
Proof.
  intros Hu Heq. rewrite <- Heq in Hu. by rewrite open_marked in Hu.
Qed.

(** *** The claims about one call *)

(** C1: an anchor that either pass selects and finds eligible has, when
    the call returns, [target] equal to [_blank], [rel] equal to
    [noopener noreferrer], and the class [modified-by-extension]. *)
Theorem C1_eligible_links_rewritten d p link :
  (p ∈ querySelectorAll searchLinks_selector d ∧
   lookup_path p d = Some link ∧ eligible_search link = true) ∨
  (p ∈ querySelectorAll imageLinks_selector (searchPass d).1 ∧
   lookup_path p (searchPass d).1 = Some link ∧ eligible_image link = true) →
  ∃ link',
    lookup_path p (modifySearchResults d) = Some link' ∧
    getAttribute "target" link' = Some "_blank" ∧
    getAttribute "rel" link' = Some "noopener noreferrer" ∧
    classList_contains marker link' = true.
Proof.
  intros H.
  assert (p ∈ mutated d) as Hm by (apply mutated_cases; naive_solver).
  destruct (mutated_unmarked d p Hm) as (link0 & Hl0 & _).
  exists (open_in_new_tab link0).
  rewrite modify_lookup, decide_True, Hl0 by done.
  split_and!; [done|apply open_target|apply open_rel|apply open_marked].
Qed.

(** C2: in the first pass a selected anchor is mutated exactly when its
    resolved URL is not empty, contains neither [google.com/search] nor
    [#], and the anchor is not marked. Mutated means that the element
    behind the reference after the pass differs from the one before;
    it then has [target] equal to [_blank], [rel] equal to
    [noopener noreferrer] and the marker appended to its classes.
    Otherwise the element after the pass is the one before. *)
Theorem C2_search_pass_eligibility d p link :
  p ∈ querySelectorAll searchLinks_selector d →
  lookup_path p d = Some link →
  ∃ link',
    lookup_path p (searchPass d).1 = Some link' ∧
    (link' ≠ link ↔
       href link ≠ EmptyString ∧
       Str.includes "google.com/search" (href link) = false ∧
       Str.includes "#" (href link) = false ∧
       marker ∉ classList link) ∧
    (p ∈ (searchPass d).2 ↔
       href link ≠ EmptyString ∧
       Str.includes "google.com/search" (href link) = false ∧
       Str.includes "#" (href link) = false ∧
       marker ∉ classList link) ∧
    (link' = link ∨
     (link' = open_in_new_tab link ∧
      getAttribute "target" link' = Some "_blank" ∧
      getAttribute "rel" link' = Some "noopener noreferrer" ∧
      classList link' = classList link ++ [marker])).
Proof.
  intros Hsel Hl.
  assert (eligible_search link = true ↔
          href link ≠ EmptyString ∧
          Str.includes "google.com/search" (href link) = false ∧
          Str.includes "#" (href link) = false ∧
          marker ∉ classList link) as Helig.
  { unfold Rewriter.eligible_search, classList_contains.
    rewrite !andb_true_iff, !negb_true_iff, bool_decide_eq_false.
    assert (Str.truthy (href link) = true ↔ href link ≠ EmptyString) as ->
      by (by destruct (href link)).
    tauto. }
  assert (p ∈ (searchPass d).2 ↔ eligible_search link = true) as Hw.
  { rewrite searchPass_written. split; [|by eauto].
    intros (_ & link0 & Hl0 & He). congruence. }
  destruct (eligible_search link) eqn:He.
  - pose proof (eligible_search_unmarked link He) as Hu.
    exists (open_in_new_tab link). rewrite <- Helig. split_and!.
    + by rewrite searchPass_lookup, decide_True, Hl by by apply Hw.
    + split; [done|]. intros _. by apply open_changes.
    + done.
    + right. split_and!; [done|apply open_target|apply open_rel|].
      by rewrite open_classList, Hu.
  - exists link. rewrite <- Helig. split_and!.
    + rewrite searchPass_lookup, decide_False, Hl; [done|].
      intros Hin. by apply Hw in Hin.
    + split; [by intros [] | done].
    + done.
    + by left.
Qed.

(** C3: a second call right after the first gives the same document,
    and writes to no element; every element the first call wrote to is
    marked when the second call starts. *)
Theorem C3_idempotent d :
  modifySearchResults (modifySearchResults d) = modifySearchResults d ∧
  mutated (modifySearchResults d) = [] ∧
  ∀ p, p ∈ mutated d →
    ∃ link, lookup_path p (modifySearchResults d) = Some link ∧
            classList_contains marker link = true.
Proof.
  destruct (modify_idempotent d) as [H1 H2]. split_and!; [done..|].
  intros p Hp. destruct (mutated_unmarked d p Hp) as (link & Hl & _).
  exists (open_in_new_tab link).
  rewrite modify_lookup, decide_True, Hl by done.
  split; [done|apply open_marked].
Qed.

(** C4: if every marked element of the document has [target] and [rel]
    as the rewriter sets them, the same holds after any number of
    calls, and over all those calls no element is written to twice. *)
Theorem C4_marked_consistent_invariant d n :
  marked_consistent d = true →
  marked_consistent (repeat_calls n d).1 = true ∧
  NoDup (repeat_calls n d).2.
Proof.
  intros Hinv. destruct n as [|n]; simpl.
  - split; [done|constructor].
  - rewrite repeat_calls_after. simpl. rewrite app_nil_r.
    split; [by apply modify_consistent | apply mutated_NoDup].
Qed.

(** C5: a marked anchor comes out of a call exactly as it went in,
    whatever its [target] and [rel] are. *)
Theorem C5_marked_untouched d p link :
  lookup_path p d = Some link →
  classList_contains marker link = true →
  lookup_path p (modifySearchResults d) = Some link ∧ p ∉ mutated d.
Proof.
  intros Hl Hm. pose proof (marked_not_mutated d p link Hl Hm) as Hn.
  split; [|done]. by rewrite modify_lookup, decide_False.
Qed.

(** C6: in the second pass a selected anchor is mutated exactly when it
    is not marked when that pass examines it; its URL plays no part.
    Mutated means that the element behind the reference when the call
    returns differs from the one the second pass found; it then has
    [target] equal to [_blank], [rel] equal to [noopener noreferrer]
    and the marker appended to its classes. Otherwise the element is
    the one the pass found. *)
Theorem C6_image_pass_eligibility d p link :
  p ∈ querySelectorAll imageLinks_selector (searchPass d).1 →
  lookup_path p (searchPass d).1 = Some link →
  ∃ link',
    lookup_path p (modifySearchResults d) = Some link' ∧
    (link' ≠ link ↔ classList_contains marker link = false) ∧
    (p ∈ (modifySearchResults_trace d).2.2 ↔
       classList_contains marker link = false) ∧
    (link' = link ∨
     (link' = open_in_new_tab link ∧
      getAttribute "target" link' = Some "_blank" ∧
      getAttribute "rel" link' = Some "noopener noreferrer" ∧
      classList link' = classList link ++ [marker])).
Proof.
  intros Hsel Hl. rewrite trace_unfold, modify_unfold. simpl.
  assert (p ∈ (imagePass (searchPass d).1).2 ↔
          classList_contains marker link = false) as Hw.
  { rewrite imagePass_written. unfold eligible_image. split.
    - intros (_ & link0 & Hl0 & He). rewrite Hl in Hl0. injection Hl0 as <-.
      by apply negb_true_iff.
    - intros Hm. split; [done|]. exists link. by rewrite Hm. }
  destruct (classList_contains marker link) eqn:Hm.
  - exists link. split_and!.
    + rewrite imagePass_lookup, decide_False, Hl; [done|].
      intros Hin. by apply Hw in Hin.
    + split; [by intros [] | done].
    + done.
    + by left.
  - exists (open_in_new_tab link). split_and!.
    + by rewrite imagePass_lookup, decide_True, Hl by by apply Hw.
    + split; [done|]. intros _. by apply open_changes.
    + done.
    + right. split_and!; [done|apply open_target|apply open_rel|].
      by rewrite open_classList, Hm.
Qed.

(** C7 (as amended): an anchor the first pass writes to is not written
    to by the second pass of the same call. *)
Theorem C7_passes_write_apart d p :
  p ∈ (modifySearchResults_trace d).2.1 →
  p ∉ (modifySearchResults_trace d).2.2.
Proof. rewrite trace_unfold. simpl. apply passes_write_apart. Qed.

(** C10: a call changes nothing behind a reference it does not write
    to; behind one it writes to, it keeps the local name and every
    attribute but [target] and [rel], sets these two to [_blank] and
    [noopener noreferrer] whatever they were, and appends the marker
    to the class list. The references written to are those selected
    and found eligible by one of the passes. *)
Theorem C10_frame d q :
  (q ∉ mutated d →
     lookup_path q (modifySearchResults d) = lookup_path q d) ∧
  (q ∈ mutated d →
     ∃ link link',
       lookup_path q d = Some link ∧
       lookup_path q (modifySearchResults d) = Some link' ∧
       localName link' = localName link ∧
       (∀ name, name ≠ "target" → name ≠ "rel" →
          getAttribute name link' = getAttribute name link) ∧
       getAttribute "target" link' = Some "_blank" ∧
       getAttribute "rel" link' = Some "noopener noreferrer" ∧
       classList link' = classList link ++ [marker]) ∧
  (q ∈ mutated d ↔
     (q ∈ querySelectorAll searchLinks_selector d ∧
      ∃ link, lookup_path q d = Some link ∧ eligible_search link = true) ∨
     (q ∈ querySelectorAll imageLinks_selector (searchPass d).1 ∧
      ∃ link, lookup_path q (searchPass d).1 = Some link ∧
              eligible_image link = true)).
Proof.
  split_and!.
  - intros Hn. by rewrite modify_lookup, decide_False.
  - intros Hm. destruct (mutated_unmarked d q Hm) as (link & Hl & Hu).
    exists link, (open_in_new_tab link).
    rewrite modify_lookup, decide_True, Hl by done.
    split_and!; try done.
    + intros name Ht Hr. by apply open_other_attr.
    + apply open_target.
    + apply open_rel.
    + by rewrite open_classList, Hu.
  - apply mutated_cases.
Qed.

End Spec.
End RewriterSpec.

(** ** Timers *)

Module LoopFacts.
Import Loop.

Lemma elem_of_enqueue tm' tm l : tm' ∈ enqueue tm l ↔ tm' = tm ∨ tm' ∈ l.
Proof.
  induction l as [|x l IH]; simpl.
  - rewrite list_elem_of_singleton, elem_of_nil. tauto.
  - destruct (timer_due tm <? timer_due x).
    + by rewrite elem_of_cons.
    + rewrite !elem_of_cons, IH. tauto.
Qed.

Lemma length_enqueue tm l : length (enqueue tm l) = S (length l).
Proof.
  induction l as [|x l IH]; simpl; [done|].
  destruct (timer_due tm <? timer_due x); simpl; by rewrite ?IH.
Qed.

Lemma filter_enqueue_out (P : timer → bool) tm l :
  P tm = false → List.filter P (enqueue tm l) = List.filter P l.
Proof.
  intros HP. induction l as [|x l IH]; simpl; [by rewrite HP|].
  destruct (timer_due tm <? timer_due x); simpl.
  - by rewrite HP.
  - by rewrite IH.
Qed.

Lemma filter_enqueue_only (P : timer → bool) tm l :
  P tm = true → List.filter P l = [] → List.filter P (enqueue tm l) = [tm].
Proof.
  intros HP. induction l as [|x l IH]; simpl; [by rewrite HP|].
  destruct (P x) eqn:Hx; [done|]. intros Hl.
  destruct (timer_due tm <? timer_due x); simpl.
  - by rewrite HP, Hx, Hl.
  - rewrite Hx. by apply IH.
Qed.

(** The flag of the observer is a disjunction over the batch. *)
Lemma shouldModify_existsb mutations :
  shouldModify mutations = existsb adds_nodes mutations.
Proof.
  unfold shouldModify.
  assert (∀ flag, foldl (λ flag mutation, if adds_nodes mutation then true else flag)
                        flag mutations = flag || existsb adds_nodes mutations) as H.
  { induction mutations as [|m ms IH]; intros flag; simpl.
    - by rewrite orb_false_r.
    - rewrite IH. destruct (adds_nodes m), flag; simpl; try done. }
  apply H.
Qed.

Lemma adds_nodes_spec m :
  adds_nodes m = true ↔ mtype m = ChildList ∧ addedNodes m ≠ [].
Proof.
  unfold adds_nodes. rewrite andb_true_iff, bool_decide_eq_true, Nat.ltb_lt.
  destruct (addedNodes m); simpl; split; intros [? ?]; split; try done; lia.
Qed.

(** *** The observer callback *)

Lemma on_mutations_keeps batch s tm :
  tm ∈ timers s → tm ∈ timers (on_mutations batch s).
Proof.
  unfold on_mutations. destruct (shouldModify batch); [|done].
  simpl. intros H. apply elem_of_enqueue. by right.
Qed.

Lemma on_mutations_length batch s :
  length (timers (on_mutations batch s)) =
  length (timers s) + (if shouldModify batch then 1 else 0).
Proof.
  unfold on_mutations. destruct (shouldModify batch); simpl.
  - rewrite length_enqueue. lia.
  - lia.
Qed.

(** C9: a batch sets a timer, due 100ms later, exactly when one of its
    records is a [childList] record with added nodes; the timer is a
    new one each time, and every timer that was active stays active,
    also over any number of batches in a row. *)
Theorem C9_mutation_batch_timers batch s batches :
  (shouldModify batch = true ↔
     ∃ m, m ∈ batch ∧ mtype m = ChildList ∧ addedNodes m ≠ []) ∧
  (shouldModify batch = true →
     timers (on_mutations batch s) =
       enqueue (Timer (next_id s) (now s + 100) FromObserver) (timers s) ∧
     next_id (on_mutations batch s) = S (next_id s)) ∧
  (shouldModify batch = false → on_mutations batch s = s) ∧
  (∀ tm, tm ∈ timers s →
     tm ∈ timers (foldl (λ s b, on_mutations b s) s batches)) ∧
  length (timers (foldl (λ s b, on_mutations b s) s batches)) =
    length (timers s) + length (List.filter shouldModify batches).
Proof.
  split_and!.
  - rewrite shouldModify_existsb, existsb_exists. split.
    + intros (m & Hin & Hm). exists m. rewrite <- adds_nodes_spec.
      split; [by apply list_elem_of_In | done].
    + intros (m & Hin & Hm). exists m. rewrite adds_nodes_spec.
      split; [by apply list_elem_of_In | done].
  - intros H. unfold on_mutations. by rewrite H.
  - intros H. unfold on_mutations. by rewrite H.
  - revert s. induction batches as [|b bs IH]; intros s tm Hin; [done|].
    simpl. by apply IH, on_mutations_keeps.
  - revert s. induction batches as [|b bs IH]; intros s; simpl; [lia|].
    rewrite IH, on_mutations_length.
    destruct (shouldModify b); simpl; lia.
Qed.

(** *** The scroll listener *)

Lemma scroll_owned_spec s :
  scroll_owned s = true ↔
  ∀ tm, tm ∈ timers s → timer_site tm = FromScroll →
        scrollTimeout s = Some (timer_id tm).
Proof.
  unfold scroll_owned. rewrite forallb_forall. split.
  - intros H tm Hin Hsite. apply list_elem_of_In, H in Hin.
    rewrite Hsite in Hin. by apply bool_decide_eq_true in Hin.
  - intros H tm Hin. apply list_elem_of_In in Hin.
    destruct (timer_site tm) eqn:Hsite; [done|].
    apply bool_decide_eq_true. by apply H.
Qed.

Lemma clearTimeout_scroll_timers s :
  scroll_owned s = true →
  scroll_timers (clearTimeout (scrollTimeout s) s) = [].
Proof.
  rewrite scroll_owned_spec. intros Hown. unfold scroll_timers.
  match goal with |- ?l = [] => destruct l as [|tm l'] eqn:Hl; [done|] end.
  exfalso.
  assert (In tm (List.filter (λ tm, bool_decide (timer_site tm = FromScroll))
                   (timers (clearTimeout (scrollTimeout s) s)))) as Hin
    by (rewrite Hl; by left).
  apply filter_In in Hin as [Hin Hsite].
  apply bool_decide_eq_true in Hsite. apply list_elem_of_In in Hin.
  unfold clearTimeout in Hin. destruct (scrollTimeout s) as [id|] eqn:Hid.
  - simpl in Hin. apply list_elem_of_filter in Hin as [Hne Hin].
    specialize (Hown tm Hin Hsite). congruence.
  - by specialize (Hown tm Hin Hsite).
Qed.

(** One scroll event: the pending scroll timer is gone, a new one due
    200ms later is the only one. *)
Lemma on_scroll_scroll_timers s :
  scroll_owned s = true →
  scroll_timers (on_scroll s) = [Timer (next_id s) (now s + 200) FromScroll].
Proof.
  intros Hown. pose proof (clearTimeout_scroll_timers s Hown) as Hclr.
  unfold on_scroll, scroll_timers in *. simpl.
  assert (next_id (clearTimeout (scrollTimeout s) s) = next_id s) as ->
    by (by destruct (scrollTimeout s)).
  assert (now (clearTimeout (scrollTimeout s) s) = now s) as ->
    by (by destruct (scrollTimeout s)).
  by apply filter_enqueue_only.
Qed.

Lemma on_scroll_owned s :
  scroll_owned s = true → scroll_owned (on_scroll s) = true.
Proof.
  intros Hown. pose proof (on_scroll_scroll_timers s Hown) as Hst.
  apply scroll_owned_spec. intros tm Hin Hsite.
  assert (tm ∈ scroll_timers (on_scroll s)) as Htm.
  { apply list_elem_of_In, filter_In. split; [by apply list_elem_of_In|].
    by apply bool_decide_eq_true. }
  rewrite Hst in Htm. apply list_elem_of_singleton in Htm as ->.
  unfold on_scroll. simpl.
  by destruct (scrollTimeout s).
Qed.

Lemma on_scroll_document s : document (on_scroll s) = document s.
Proof. unfold on_scroll. simpl. by destruct (scrollTimeout s). Qed.

Lemma on_mutations_document batch s : document (on_mutations batch s) = document s.
Proof. unfold on_mutations. by destruct (shouldModify batch). Qed.

Lemma on_scroll_now s : now (on_scroll s) = now s.
Proof. unfold on_scroll. simpl. by destruct (scrollTimeout s). Qed.

Lemma on_scroll_rescans s : rescans (on_scroll s) = rescans s.
Proof. unfold on_scroll. simpl. by destruct (scrollTimeout s). Qed.

Lemma on_scroll_scroll_rescans s :
  scroll_rescans (on_scroll s) = scroll_rescans s.
Proof. unfold scroll_rescans. by rewrite on_scroll_rescans. Qed.

Lemma on_mutations_scroll_timers batch s :
  scroll_timers (on_mutations batch s) = scroll_timers s.
Proof.
  unfold on_mutations. destruct (shouldModify batch); [|done].
  unfold scroll_timers. simpl. by apply filter_enqueue_out.
Qed.

Lemma on_mutations_owned batch s :
  scroll_owned s = true → scroll_owned (on_mutations batch s) = true.
Proof.
  rewrite !scroll_owned_spec. intros Hown tm Hin Hsite.
  unfold on_mutations in *. destruct (shouldModify batch); [|by apply Hown].
  simpl in *. apply elem_of_enqueue in Hin as [->|Hin]; [done|by apply Hown].
Qed.

Lemma on_mutations_now batch s : now (on_mutations batch s) = now s.
Proof. unfold on_mutations. by destruct (shouldModify batch). Qed.

Lemma on_mutations_rescans batch s : rescans (on_mutations batch s) = rescans s.
Proof. unfold on_mutations. by destruct (shouldModify batch). Qed.

Lemma on_mutations_scroll_rescans batch s :
  scroll_rescans (on_mutations batch s) = scroll_rescans s.
Proof. unfold scroll_rescans. by rewrite on_mutations_rescans. Qed.

(** *** The clock *)

Lemma filter_filter_comm {A} (P Q : A → bool) l :
  List.filter P (List.filter Q l) = List.filter Q (List.filter P l).
Proof.
  induction l as [|x l IH]; [done|]. simpl.
  destruct (P x) eqn:HP, (Q x) eqn:HQ; simpl; rewrite ?HP, ?HQ, IH; done.
Qed.

Lemma scroll_part_of_fired (l : list timer) :
  (List.filter (λ r : nat * site, bool_decide (r.2 = FromScroll))
     (map (λ tm, (timer_due tm, timer_site tm)) l)).*1 =
  map timer_due (List.filter (λ tm, bool_decide (timer_site tm = FromScroll)) l).
Proof.
  induction l as [|tm l IH]; [done|]. simpl.
  destruct (bool_decide (timer_site tm = FromScroll)); simpl; [f_equal|]; apply IH.
Qed.

Section Clock.

Variable resolveURL : string → string.

Local Abbreviation fire := (fire resolveURL).
Local Abbreviation advance := (advance resolveURL).
Local Abbreviation run := (run resolveURL).
Local Abbreviation start := (start resolveURL).

Lemma fired_fields l s0 :
  timers (foldl fire s0 l) = timers s0 ∧
  scrollTimeout (foldl fire s0 l) = scrollTimeout s0 ∧
  rescans (foldl fire s0 l) =
    rescans s0 ++ map (λ tm, (timer_due tm, timer_site tm)) l.
Proof.
  revert s0. induction l as [|tm l IH]; intros s0; simpl.
  - by rewrite app_nil_r.
  - destruct (IH (fire s0 tm)) as (-> & -> & ->). simpl.
    by rewrite <- app_assoc.
Qed.

Lemma fired_now t l s0 :
  Forall (λ tm, timer_due tm ≤ t) l →
  t `max` now (foldl fire s0 l) = t `max` now s0.
Proof.
  intros H. revert s0. induction H as [|tm l Htm _ IH]; intros s0; simpl; [done|].
  rewrite IH. simpl. lia.
Qed.

Lemma advance_now t s : now (advance t s) = t `max` now s.
Proof.
  unfold Loop.advance. simpl. rewrite (fired_now t); [done|].
  apply Forall_forall. intros tm [_ Hdue]%list_elem_of_In%filter_In.
  by apply Nat.leb_le in Hdue.
Qed.

Lemma advance_timers t s :
  timers (advance t s) = List.filter (λ tm, negb (is_due t tm)) (timers s).
Proof.
  unfold Loop.advance. simpl.
  by destruct (fired_fields (List.filter (is_due t) (timers s))
    {| document := document s; now := now s;
       timers := List.filter (λ tm, negb (is_due t tm)) (timers s);
       next_id := next_id s; scrollTimeout := scrollTimeout s;
       rescans := rescans s |}) as (-> & _ & _).
Qed.

Lemma advance_scrollTimeout t s :
  scrollTimeout (advance t s) = scrollTimeout s.
Proof.
  unfold Loop.advance. simpl.
  by destruct (fired_fields (List.filter (is_due t) (timers s))
    {| document := document s; now := now s;
       timers := List.filter (λ tm, negb (is_due t tm)) (timers s);
       next_id := next_id s; scrollTimeout := scrollTimeout s;
       rescans := rescans s |}) as (_ & -> & _).
Qed.

Lemma advance_rescans t s :
  rescans (advance t s) =
  rescans s ++ map (λ tm, (timer_due tm, timer_site tm))
                   (List.filter (is_due t) (timers s)).
Proof.
  unfold Loop.advance. simpl.
  by destruct (fired_fields (List.filter (is_due t) (timers s))
    {| document := document s; now := now s;
       timers := List.filter (λ tm, negb (is_due t tm)) (timers s);
       next_id := next_id s; scrollTimeout := scrollTimeout s;
       rescans := rescans s |}) as (_ & _ & ->).
Qed.

Lemma advance_scroll_timers t s :
  scroll_timers (advance t s) =
  List.filter (λ tm, negb (is_due t tm)) (scroll_timers s).
Proof.
  unfold scroll_timers. rewrite advance_timers. apply filter_filter_comm.
Qed.

Lemma advance_scroll_rescans t s :
  scroll_rescans (advance t s) =
  scroll_rescans s ++ map timer_due (List.filter (is_due t) (scroll_timers s)).
Proof.
  unfold scroll_rescans, scroll_timers.
  rewrite advance_rescans, List.filter_app, fmap_app, scroll_part_of_fired.
  by rewrite filter_filter_comm.
Qed.

Lemma advance_owned t s :
  scroll_owned s = true → scroll_owned (advance t s) = true.
Proof.
  rewrite !scroll_owned_spec. intros Hown tm Hin Hsite.
  rewrite advance_scrollTimeout. apply Hown; [|done].
  rewrite advance_timers in Hin.
  by apply list_elem_of_In, filter_In in Hin as [?%list_elem_of_In _].
Qed.

Lemma handle_owned ev s :
  scroll_owned s = true → scroll_owned (handle ev s) = true.
Proof. destruct ev; [apply on_scroll_owned | apply on_mutations_owned]. Qed.

(** The script keeps [scroll_owned] from the start on. *)
Lemma run_owned trace s :
  scroll_owned s = true → scroll_owned (run trace s) = true.
Proof.
  revert s. induction trace as [|[t ev] trace IH]; intros s Hown; [done|].
  simpl. by apply IH, handle_owned, advance_owned.
Qed.

Lemma reachable_owned trace d : scroll_owned (run trace (start d)) = true.
Proof. by apply run_owned. Qed.

(** Nothing but the rewriter touches the document here, so every state
    the script reaches holds the document of the first call. *)
Lemma fired_document l s0 d :
  document s0 = Rewriter.modifySearchResults resolveURL d →
  document (foldl fire s0 l) = Rewriter.modifySearchResults resolveURL d.
Proof.
  revert s0. induction l as [|tm l IH]; intros s0 H; [done|].
  simpl. apply IH. simpl. rewrite H.
  apply RewriterSpec.modify_idempotent.
Qed.

Lemma reachable_document trace d :
  document (run trace (start d)) = Rewriter.modifySearchResults resolveURL d.
Proof.
  assert (∀ s, document s = Rewriter.modifySearchResults resolveURL d →
               document (run trace s) = Rewriter.modifySearchResults resolveURL d) as H.
  { induction trace as [|[t ev] trace IH]; intros s Hs; [done|].
    cbn [Loop.run]. apply IH.
    assert (document (advance t s) = Rewriter.modifySearchResults resolveURL d) as Ha
      by (unfold Loop.advance; simpl; apply fired_document; simpl; exact Hs).
    destruct ev as [|batch]; cbn [handle].
    - by rewrite on_scroll_document.
    - by rewrite on_mutations_document. }
  by apply H.
Qed.



End Clock.

End LoopFacts.

(** ** The claims with hypotheses, on the example page *)

Module Witnesses.
Import Rewriter Loop Examples.

Ltac member := apply list_elem_of_In; vm_compute; tauto.

Lemma C1_witness :
  ∃ link',
    lookup_path [0; 0; 0] (modifySearchResults resolve page) = Some link' ∧
    getAttribute "target" link' = Some "_blank" ∧
    getAttribute "rel" link' = Some "noopener noreferrer" ∧
    classList_contains marker link' = true.
Proof.
  apply (RewriterSpec.C1_eligible_links_rewritten resolve page [0; 0; 0] result_link).
  left. split; [member|]. split; reflexivity.
Defined.

Lemma C2_witness :
  (∃ link',
     lookup_path [0; 0; 0] (searchPass resolve page).1 = Some link' ∧
     (link' ≠ result_link ↔
        href resolve result_link ≠ EmptyString ∧
        Str.includes "google.com/search" (href resolve result_link) = false ∧
        Str.includes "#" (href resolve result_link) = false ∧
        marker ∉ classList result_link) ∧
     ([0; 0; 0] ∈ (searchPass resolve page).2 ↔
        href resolve result_link ≠ EmptyString ∧
        Str.includes "google.com/search" (href resolve result_link) = false ∧
        Str.includes "#" (href resolve result_link) = false ∧
        marker ∉ classList result_link) ∧
     (link' = result_link ∨
      (link' = open_in_new_tab result_link ∧
       getAttribute "target" link' = Some "_blank" ∧
       getAttribute "rel" link' = Some "noopener noreferrer" ∧
       classList link' = classList result_link ++ [marker]))) ∧
  (∃ link',
     lookup_path [1] (searchPass resolve page).1 = Some link' ∧
     (link' ≠ self_link ↔
        href resolve self_link ≠ EmptyString ∧
        Str.includes "google.com/search" (href resolve self_link) = false ∧
        Str.includes "#" (href resolve self_link) = false ∧
        marker ∉ classList self_link) ∧
     ([1] ∈ (searchPass resolve page).2 ↔
        href resolve self_link ≠ EmptyString ∧
        Str.includes "google.com/search" (href resolve self_link) = false ∧
        Str.includes "#" (href resolve self_link) = false ∧
        marker ∉ classList self_link) ∧
     (link' = self_link ∨
      (link' = open_in_new_tab self_link ∧
       getAttribute "target" link' = Some "_blank" ∧
       getAttribute "rel" link' = Some "noopener noreferrer" ∧
       classList link' = classList self_link ++ [marker]))).
Proof.
  split.
  - apply (RewriterSpec.C2_search_pass_eligibility resolve page [0; 0; 0] result_link);
      [member | reflexivity].
  - apply (RewriterSpec.C2_search_pass_eligibility resolve page [1] self_link);
      [member | reflexivity].
Defined.

Lemma C4_witness :
  marked_consistent page = true ∧
  marked_consistent (repeat_calls resolve 3 page).1 = true ∧
  NoDup (repeat_calls resolve 3 page).2.
Proof.
  assert (marked_consistent page = true) as H by reflexivity.
  split; [exact H|].
  exact (RewriterSpec.C4_marked_consistent_invariant resolve page 3 H).
Defined.

Lemma C5_witness :
  lookup_path [1] (modifySearchResults resolve stale_page) = Some stale_link ∧
  [1] ∉ mutated resolve stale_page.
Proof.
  apply (RewriterSpec.C5_marked_untouched resolve stale_page [1] stale_link);
    reflexivity.
Defined.

Lemma C6_witness :
  (∃ link',
     lookup_path [3] (modifySearchResults resolve page) = Some link' ∧
     (link' ≠ image_link ↔ classList_contains marker image_link = false) ∧
     ([3] ∈ (modifySearchResults_trace resolve page).2.2 ↔
        classList_contains marker image_link = false) ∧
     (link' = image_link ∨
      (link' = open_in_new_tab image_link ∧
       getAttribute "target" link' = Some "_blank" ∧
       getAttribute "rel" link' = Some "noopener noreferrer" ∧
       classList link' = classList image_link ++ [marker]))) ∧
  (∃ link',
     lookup_path [1] (modifySearchResults resolve stale_page) = Some link' ∧
     (link' ≠ stale_link ↔ classList_contains marker stale_link = false) ∧
     ([1] ∈ (modifySearchResults_trace resolve stale_page).2.2 ↔
        classList_contains marker stale_link = false) ∧
     (link' = stale_link ∨
      (link' = open_in_new_tab stale_link ∧
       getAttribute "target" link' = Some "_blank" ∧
       getAttribute "rel" link' = Some "noopener noreferrer" ∧
       classList link' = classList stale_link ++ [marker]))).
Proof.
  split.
  - apply (RewriterSpec.C6_image_pass_eligibility resolve page [3] image_link);
      [member | reflexivity].
  - apply (RewriterSpec.C6_image_pass_eligibility resolve stale_page [1] stale_link);
      [member | reflexivity].
Defined.

Lemma C7_witness :
  [4] ∈ (modifySearchResults_trace resolve page).2.1 ∧
  [4] ∉ (modifySearchResults_trace resolve page).2.2.
Proof.
  assert ([4] ∈ (modifySearchResults_trace resolve page).2.1) as H by member.
  split; [exact H|].
  exact (RewriterSpec.C7_passes_write_apart resolve page [4] H).
Defined.

(** C7 as stated fails: the anchor at [4] of the example page, with
    [jsname] and an [href] containing [/imgres], is selected by both
    passes. *)
Lemma C7_selectors_overlap :
  ¬ ∀ (d : node) (p : path),
      p ∈ querySelectorAll searchLinks_selector d →
      p ∉ querySelectorAll imageLinks_selector d.
Proof.
  intros H. apply (H page [4]); member.
Qed.


(** The example page after one call, element by element. *)
Example page_rewritten :
  (λ e, (getAttribute "target" e, getAttribute "rel" e, classList e)) <$>
    elements (modifySearchResults resolve page) =
  [ (None, None, []);
    (None, None, ["g"]);
    (None, None, []);
    (Some "_blank", Some "noopener noreferrer", [marker]);
    (None, None, []);
    (None, None, []);
    (Some "_blank", Some "noopener noreferrer", ["thumb"; marker]);
    (Some "_blank", Some "noopener noreferrer", [marker]) ].
Proof. reflexivity. Qed.

Example page_mutated :
  modifySearchResults_trace resolve page =
  (modifySearchResults resolve page, ([[0; 0; 0]; [4]], [[3]])).
Proof. reflexivity. Qed.

(** Three timers set by the scroll listener, one rescan for it. *)
Example burst_rescans_once :
  rescans (advance resolve 500
             (run resolve ((10, Scroll) :: burst_tail) (start resolve page))) =
  [ (220, FromObserver); (420, FromScroll) ].
Proof. reflexivity. Qed.

End Witnesses.

(** ** Substrings *)

Module StrFacts.

Lemma append_String a s t : String a s +:+ t = String a (s +:+ t).
Proof. reflexivity. Qed.

Lemma append_empty t : EmptyString +:+ t = t.
Proof. reflexivity. Qed.

Lemma startsWith_spec needle s :
  Str.startsWith needle s = true ↔ ∃ post, s = needle +:+ post.
Proof.
  revert s. induction needle as [|a needle IH]; intros s; simpl.
  - split; [by exists s | done].
  - destruct s as [|b s].
    + split; [done | by intros [post H]].
    + destruct (Ascii.eqb_spec a b) as [->|Hne].
      * rewrite IH. split; intros [post H]; exists post;
          rewrite append_String in *; congruence.
      * split; [done|]. intros [post H]. rewrite append_String in H. congruence.
Qed.

(** X1: [includes] is the substring test: [s.includes(needle)] holds
    exactly when [s] is some prefix, then [needle], then some suffix. *)
Theorem X1_includes_substring needle s :
  Str.includes needle s = true ↔ ∃ pre post, s = pre +:+ needle +:+ post.
Proof.
  induction s as [|b s IH].
  - simpl. rewrite orb_false_r, startsWith_spec. split.
    + intros [post H]. by exists EmptyString, post.
    + intros (pre & post & H). destruct pre as [|c pre]; [by exists post|].
      by rewrite append_String in H.
  - cbn [Str.includes]. rewrite orb_true_iff, IH, startsWith_spec. split.
    + intros [[post H]|(pre & post & H)].
      * by exists EmptyString, post.
      * exists (String b pre), post. by rewrite append_String, H.
    + intros (pre & post & H). destruct pre as [|c pre].
      * left. by exists post.
      * right. exists pre, post. rewrite append_String in H. congruence.
Qed.

End StrFacts.

(** ** What [querySelectorAll] selects *)

Module SelectionFacts.

Lemma elem_of_in_children (f : node → list path) i cs q :
  q ∈ in_children f i cs ↔
  ∃ j c q', q = (i + j) :: q' ∧ cs !! j = Some c ∧ q' ∈ f c.
Proof.
  revert i. induction cs as [|c cs IH]; intros i; simpl.
  - rewrite elem_of_nil. split; [done|]. by intros (j & c & q' & _ & H & _).
  - rewrite elem_of_app, list_elem_of_fmap, IH. split.
    + intros [(q' & -> & Hq')|(j & c' & q' & -> & Hj & Hq')].
      * exists 0, c, q'. by rewrite Nat.add_0_r.
      * exists (S j), c', q'. split; [f_equal; lia | done].
    + intros (j & c' & q' & -> & Hj & Hq'). destruct j as [|j]; simpl in Hj.
      * injection Hj as <-. left. exists q'. by rewrite Nat.add_0_r.
      * right. exists j, c', q'. split; [f_equal; lia | done].
Qed.

(** A reference is selected exactly when it leads to an element that,
    with its ancestors, matches the selector. *)
Lemma qsa_node_spec sel n :
  ∀ anc p,
    p ∈ qsa_node sel anc n ↔
    ∃ e, lookup_path p n = Some e ∧
         matches sel (ancestors_from anc p n) e = true.
Proof.
  induction n as [e0 cs IH] using DomFacts.node_ind'. intros anc p.
  simpl. rewrite elem_of_app, elem_of_in_children.
  destruct p as [|i p]; simpl.
  - split.
    + intros [H|(j & c & q' & H & _)]; [|done].
      destruct (matches sel anc e0) eqn:Hm; [eauto | by apply elem_of_nil in H].
    + intros (e & [= <-] & Hm). left. rewrite Hm. by left.
  - split.
    + intros [H|(j & c & q' & [= -> ->] & Hj & Hq')].
      * destruct (matches sel anc e0);
          [by apply list_elem_of_singleton in H | by apply elem_of_nil in H].
      * rewrite Hj. rewrite Forall_forall in IH.
        apply (IH c); [by eapply list_elem_of_lookup_2 | done].
    + intros (e & Hl & Hm). right.
      destruct (cs !! i) as [c|] eqn:Hi; [|done].
      exists i, c, p. split; [done|]. split; [done|].
      rewrite Forall_forall in IH.
      apply (IH c); [by eapply list_elem_of_lookup_2 | eauto].
Qed.

Lemma querySelectorAll_spec sel d p :
  p ∈ querySelectorAll sel d ↔
  ∃ e, lookup_path p d = Some e ∧ matches sel (ancestors p d) e = true.
Proof. apply qsa_node_spec. Qed.

Import Rewriter.

Lemma matches_search_anchor anc e :
  matches searchLinks_selector anc e = true → localName e = "a".
Proof.
  intros H. destruct (decide (localName e = "a")) as [|Hne]; [done|].
  exfalso. revert H. unfold matches, matches_complex. simpl.
  rewrite !bool_decide_eq_false_2 by done. done.
Qed.

Lemma matches_image_anchor anc e :
  matches imageLinks_selector anc e = true →
  localName e = "a" ∧ is_Some (getAttribute "href" e).
Proof.
  unfold matches, matches_complex. simpl.
  rewrite !orb_false_r, !andb_true_r, andb_true_iff, bool_decide_eq_true.
  intros [Ha Hh]. split; [done|].
  by destruct (getAttribute "href" e).
Qed.

Lemma similar_elements (R : element → element → Prop) d :
  ∀ d', similar R d d' → Forall2 R (elements d) (elements d').
Proof.
  induction d as [e cs IH] using DomFacts.node_ind'. intros d' Hsim.
  inversion Hsim as [e1 e2 cs1 cs2 He Hcs]; subst. simpl.
  constructor; [done|].
  clear Hsim. induction Hcs as [|c1 c2 cs1 cs2 Hc Hcs IHcs]; [constructor|].
  apply Forall_cons in IH as [IHc IHrest]. simpl.
  apply Forall2_app; [by apply IHc | by apply IHcs].
Qed.

End SelectionFacts.

(** ** More about one call *)

Module RewriterMore.
Import Rewriter RewriterFacts RewriterSpec SelectionFacts.

Lemma untouched_part_open link :
  untouched_part (open_in_new_tab link) = untouched_part link.
Proof.
  unfold untouched_part. f_equal; [f_equal|].
  - unfold open_in_new_tab. simpl. apply map_eq. intros k.
    destruct (decide (k = "target")) as [->|Ht];
      [by rewrite !lookup_delete_eq|].
    rewrite !(lookup_delete_ne _ "target") by done.
    destruct (decide (k = "rel")) as [->|Hr];
      [by rewrite !lookup_delete_eq|].
    rewrite !(lookup_delete_ne _ "rel") by done.
    by rewrite !lookup_insert_ne.
  - rewrite open_classList. destruct (classList_contains marker link); [done|].
    rewrite List.filter_app. simpl. apply app_nil_r.
Qed.

Section More.

Variable resolveURL : string → string.

Local Abbreviation href := (href resolveURL).
Local Abbreviation eligible_search := (eligible_search resolveURL).
Local Abbreviation searchPass := (searchPass resolveURL).
Local Abbreviation modifySearchResults := (modifySearchResults resolveURL).
Local Abbreviation mutated := (mutated resolveURL).
Local Abbreviation url_eligible := (url_eligible resolveURL).

Lemma eligible_search_split link :
  eligible_search link = url_eligible link && negb (classList_contains marker link).
Proof. done. Qed.

Lemma url_eligible_href link :
  url_eligible link = true → is_Some (getAttribute "href" link).
Proof.
  unfold Ancestry.url_eligible, Rewriter.href.
  destruct (getAttribute "href" link); [eauto | done].
Qed.

(** A reference is written to exactly when, before the call, it leads to
    an unmarked element that the first selector selects with an eligible
    URL or that the second selector selects. *)
Lemma mutated_iff d q :
  q ∈ mutated d ↔
  ∃ link,
    lookup_path q d = Some link ∧
    classList_contains marker link = false ∧
    ((q ∈ querySelectorAll searchLinks_selector d ∧ url_eligible link = true) ∨
     q ∈ querySelectorAll imageLinks_selector d).
Proof.
  split.
  - intros Hm. destruct (mutated_unmarked resolveURL d q Hm) as (link & Hl & Hu).
    exists link. split_and!; [done..|].
    apply mutated_cases in Hm as [(Hsel & link' & Hl' & He)|(Hsel & _)].
    + left. split; [done|]. rewrite Hl in Hl'. injection Hl' as <-.
      rewrite eligible_search_split in He. by apply andb_prop in He as [? _].
    + right. by rewrite searchPass_matches in Hsel by apply imageLinks_blind.
  - intros (link & Hl & Hu & Hsel).
    assert (q ∈ (searchPass d).2 ∨ q ∉ (searchPass d).2) as [H1|H1]
      by (destruct (decide (q ∈ (searchPass d).2)); auto).
    { rewrite mutated_unfold. apply elem_of_app. by left. }
    destruct Hsel as [[Hsel Hurl]|Hsel].
    + destruct H1. apply searchPass_written. split; [done|].
      exists link. split; [done|]. by rewrite eligible_search_split, Hurl, Hu.
    + rewrite mutated_unfold. apply elem_of_app. right.
      apply imagePass_written.
      rewrite searchPass_matches by apply imageLinks_blind. split; [done|].
      exists link. rewrite searchPass_lookup, decide_False by done.
      split; [done|]. unfold eligible_image. by rewrite Hu.
Qed.

(** X2: only anchors that have an [href] attribute are ever written
    to. *)
Theorem X2_only_anchors_with_href d q :
  q ∈ mutated d →
  ∃ link, lookup_path q d = Some link ∧
          localName link = "a" ∧ is_Some (getAttribute "href" link).
Proof.
  intros (link & Hl & _ & Hsel)%mutated_iff. exists link. split; [done|].
  destruct Hsel as [[Hsel Hurl]|Hsel].
  - apply querySelectorAll_spec in Hsel as (e & He & Hm).
    rewrite Hl in He. injection He as <-.
    split; [by eapply matches_search_anchor | by apply url_eligible_href].
  - apply querySelectorAll_spec in Hsel as (e & He & Hm).
    rewrite Hl in He. injection He as <-. by eapply matches_image_anchor.
Qed.

(** X3: which elements a call rewrites can be read off the document as
    it is before the call: those that are unmarked and are either
    selected by the first selector with a resolved URL that is not
    empty and contains neither [google.com/search] nor [#], or selected
    by the second selector. These, and no others, come out as
    [open_in_new_tab] of what they were. *)
Theorem X3_rewritten_iff d q :
  (q ∈ mutated d ↔
   ∃ link,
     lookup_path q d = Some link ∧
     classList_contains marker link = false ∧
     ((q ∈ querySelectorAll searchLinks_selector d ∧
       href link ≠ EmptyString ∧
       Str.includes "google.com/search" (href link) = false ∧
       Str.includes "#" (href link) = false) ∨
      q ∈ querySelectorAll imageLinks_selector d)) ∧
  lookup_path q (modifySearchResults d) =
    (if decide (q ∈ mutated d) then open_in_new_tab <$> lookup_path q d
     else lookup_path q d).
Proof.
  split; [|apply modify_lookup].
  rewrite mutated_iff.
  assert (∀ link, url_eligible link = true ↔
            href link ≠ EmptyString ∧
            Str.includes "google.com/search" (href link) = false ∧
            Str.includes "#" (href link) = false) as Hurl.
  { intros link. unfold Ancestry.url_eligible.
    rewrite !andb_true_iff, !negb_true_iff.
    assert (Str.truthy (href link) = true ↔ href link ≠ EmptyString) as ->
      by (by destruct (href link)).
    tauto. }
  split; intros (link & Hl & Hu & Hsel); exists link; split_and!; try done.
  - destruct Hsel as [[? ?%Hurl]|?]; [left|right]; done.
  - destruct Hsel as [[? ?%Hurl]|?]; [left|right]; done.
Qed.

(** X4: a call leaves no candidate behind: an element that the second
    selector selects, or that the first selector selects with an
    eligible URL, is marked when the call returns, with its [href] as
    it was. *)
Theorem X4_candidates_marked d p link :
  lookup_path p d = Some link →
  (p ∈ querySelectorAll searchLinks_selector d ∧ url_eligible link = true) ∨
  p ∈ querySelectorAll imageLinks_selector d →
  ∃ link',
    lookup_path p (modifySearchResults d) = Some link' ∧
    classList_contains marker link' = true ∧
    getAttribute "href" link' = getAttribute "href" link.
Proof.
  intros Hl Hsel. rewrite modify_lookup, Hl.
  destruct (classList_contains marker link) eqn:Hm.
  - rewrite decide_False by by eapply marked_not_mutated.
    by exists link.
  - rewrite decide_True by (apply mutated_iff; eauto).
    exists (open_in_new_tab link). split; [done|].
    split; [apply open_marked | by apply open_other_attr].
Qed.

(** X5: a call adds, removes and moves no element, and changes nothing
    of any element but [target], [rel] and the marker class: the
    elements in document order, without these three, are the same
    before and after. *)
Theorem X5_rest_untouched d :
  untouched_part <$> elements (modifySearchResults d) =
  untouched_part <$> elements d.
Proof.
  assert (similar (λ e0 e, untouched_part e = untouched_part e0)
                  d (modifySearchResults d)) as Hsim.
  { rewrite modify_unfold.
    apply forEach_similar; [intros e0 e <-; apply untouched_part_open|].
    apply forEach_similar; [intros e0 e <-; apply untouched_part_open|].
    by apply CssFacts.similar_refl. }
  apply similar_elements in Hsim.
  induction Hsim as [|e0 e l0 l He _ IH]; [done|].
  rewrite !fmap_cons. by rewrite He, IH.
Qed.

End More.
End RewriterMore.

(** ** The two selectors, read out *)

Module SelectorReading.
Import Rewriter SelectionFacts.

(** More ancestors cannot make a chain of compounds fail, and the
    nearest match for the first compound is as good as any. *)
Lemma matches_ancestors_step c rest anc :
  (∀ pre l, matches_ancestors rest l = true →
            matches_ancestors rest (pre ++ l) = true) →
  matches_ancestors (c :: rest) anc = true ↔
  ∃ pre a post,
    anc = pre ++ a :: post ∧ matches_compound c a = true ∧
    matches_ancestors rest post = true.
Proof.
  intros Hmono. induction anc as [|a0 anc IH].
  - simpl. split; [done|]. intros (pre & a & post & H & _). by destruct pre.
  - cbn [matches_ancestors]. destruct (matches_compound c a0) eqn:Hc.
    + split.
      * intros H. by exists [], a0, anc.
      * intros (pre & a & post & Heq & _ & Hrest).
        destruct pre as [|x pre]; simpl in Heq; injection Heq as -> ->; [done|].
        replace (pre ++ a :: post) with ((pre ++ [a]) ++ post)
          by (by rewrite <- app_assoc).
        by apply Hmono.
    + change (matches_ancestors (c :: rest) anc = true ↔
              ∃ pre a post, a0 :: anc = pre ++ a :: post ∧
                matches_compound c a = true ∧ matches_ancestors rest post = true).
      rewrite IH. split.
      * intros (pre & a & post & -> & Ha & Hrest). by exists (a0 :: pre), a, post.
      * intros (pre & a & post & Heq & Ha & Hrest).
        destruct pre as [|x pre]; simpl in Heq; injection Heq as -> ->;
          [congruence|]. by exists pre, a, post.
Qed.

Lemma matches_ancestors_mono rest :
  ∀ pre l, matches_ancestors rest l = true →
           matches_ancestors rest (pre ++ l) = true.
Proof.
  induction rest as [|c rest IH]; intros pre l; [done|].
  rewrite !(matches_ancestors_step c rest) by done.
  intros (pre' & a & post & -> & Ha & Hrest).
  exists (pre ++ pre'), a, post. by rewrite app_assoc.
Qed.

Lemma matches_ancestors_cons c rest anc :
  matches_ancestors (c :: rest) anc = true ↔
  ∃ pre a post,
    anc = pre ++ a :: post ∧ matches_compound c a = true ∧
    matches_ancestors rest post = true.
Proof. apply matches_ancestors_step, matches_ancestors_mono. Qed.

Lemma matches_ancestors_one c anc :
  matches_ancestors [c] anc = true ↔
  ∃ a, a ∈ anc ∧ matches_compound c a = true.
Proof.
  rewrite matches_ancestors_cons. split.
  - intros (pre & a & post & -> & Ha & _). exists a.
    split; [|done]. apply elem_of_app. right. by left.
  - intros (a & (pre & post & ->)%list_elem_of_split & Ha). by exists pre, a, post.
Qed.

(** X6: the first selector selects exactly the [a] elements whose
    [href] attribute contains [/url?q=], or that have a [jsname]
    attribute, or that lie in an [h3] that lies in an element of class
    [g], or that lie in an element of class [yuRUbf]; the second
    selects exactly the [a] elements whose [href] attribute contains
    [/imgres]. *)
Theorem X6_selectors_read d p :
  (p ∈ querySelectorAll searchLinks_selector d ↔
   ∃ e, lookup_path p d = Some e ∧ localName e = "a" ∧
     ((∃ v, getAttribute "href" e = Some v ∧ Str.includes "/url?q=" v = true) ∨
      is_Some (getAttribute "jsname" e) ∨
      (∃ pre h post g, ancestors p d = pre ++ h :: post ∧ localName h = "h3" ∧
                       g ∈ post ∧ "g" ∈ classList g) ∨
      (∃ y, y ∈ ancestors p d ∧ "yuRUbf" ∈ classList y))) ∧
  (p ∈ querySelectorAll imageLinks_selector d ↔
   ∃ e v, lookup_path p d = Some e ∧ localName e = "a" ∧
          getAttribute "href" e = Some v ∧ Str.includes "/imgres" v = true).
Proof.
  split.
  - rewrite querySelectorAll_spec.
    apply exist_proper. intros e. apply and_iff_compat_l.
    unfold matches, searchLinks_selector, matches_complex.
    cbn [existsb rev app].
    rewrite orb_false_r, !orb_true_iff, !andb_true_iff.
    rewrite matches_ancestors_cons, (matches_ancestors_one [SelClass "yuRUbf"]).
    setoid_rewrite matches_ancestors_one.
    unfold matches_compound. cbn [forallb matches_simple matches_ancestors].
    unfold classList_contains.
    setoid_rewrite andb_true_r. rewrite !andb_true_iff.
    setoid_rewrite bool_decide_eq_true.
    split.
    + intros [[[Ha Hh] _]|[[[Ha Hj] _]|[[Ha Hg]|[Ha Hy]]]]; (split; [done|]).
      * left. destruct (getAttribute "href" e) as [v|]; [by exists v|done].
      * right. by left.
      * right. right. left.
        destruct Hg as (pre & h & post & Heq & Hh3 & g & Hin & Hg).
        by exists pre, h, post, g.
      * right. right. by right.
    + intros [Ha [(v & Hv & Hinc)|[Hj|[Hg|Hy]]]].
      * left. split; [|done]. split; [done|]. by rewrite Hv.
      * right. by left.
      * right. right. left. split; [done|].
        destruct Hg as (pre & h & post & g & Heq & Hh3 & Hin & Hg).
        exists pre, h, post. eauto.
      * right. right. by right.
  - rewrite querySelectorAll_spec.
    apply exist_proper. intros e.
    unfold matches, imageLinks_selector, matches_complex.
    cbn [existsb rev app]. unfold matches_compound.
    cbn [forallb matches_simple matches_ancestors].
    rewrite !orb_false_r, !andb_true_r, !andb_true_iff, bool_decide_eq_true.
    split.
    + intros (Hl & Ha & Hh).
      destruct (getAttribute "href" e) as [v|]; [by exists v|done].
    + intros (v & Hl & Ha & Hv & Hinc). by rewrite Hv.
Qed.

End SelectorReading.

(** ** Runs of the script *)

Module LoopMore.
Import Loop LoopFacts.

Lemma timers_fresh_spec s :
  timers_fresh s = true ↔
  (∀ tm, tm ∈ timers s → timer_id tm < next_id s) ∧
  (∀ id, scrollTimeout s = Some id →
     id < next_id s ∧
     ∀ tm, tm ∈ timers s → timer_id tm = id → timer_site tm = FromScroll).
Proof.
  unfold timers_fresh. rewrite andb_true_iff, forallb_forall.
  assert ((∀ x, In x (timers s) → (timer_id x <? next_id s) = true) ↔
          (∀ tm, tm ∈ timers s → timer_id tm < next_id s)) as ->.
  { split; intros H tm Hin.
    - by apply Nat.ltb_lt, H, list_elem_of_In.
    - by apply Nat.ltb_lt, H, list_elem_of_In. }
  apply and_iff_compat_l.
  destruct (scrollTimeout s) as [id|]; [|by split].
  rewrite andb_true_iff, forallb_forall, Nat.ltb_lt. split.
  - intros [Hid H] id' [= <-]. split; [done|]. intros tm Hin Heq.
    apply list_elem_of_In, H in Hin.
    rewrite bool_decide_eq_true_2 in Hin by done.
    by apply bool_decide_eq_true in Hin.
  - intros H. destruct (H id eq_refl) as [Hid Hs]. split; [done|].
    intros tm Hin. apply list_elem_of_In in Hin.
    destruct (decide (timer_id tm = id)) as [Heq|Hne].
    + rewrite (bool_decide_eq_true_2 (timer_site tm = FromScroll)) by auto.
      apply orb_true_r.
    + by rewrite bool_decide_eq_false_2.
Qed.

Lemma on_mutations_fresh batch s :
  timers_fresh s = true → timers_fresh (on_mutations batch s) = true.
Proof.
  rewrite !timers_fresh_spec. intros [Hids Hscroll].
  unfold on_mutations. destruct (shouldModify batch); [|done]. simpl. split.
  - intros tm [->|Hin]%elem_of_enqueue; [simpl; lia|].
    specialize (Hids tm Hin). lia.
  - intros id Hid. destruct (Hscroll id Hid) as [Hlt Hs]. split; [lia|].
    intros tm [->|Hin]%elem_of_enqueue; [simpl; lia | by apply Hs].
Qed.

Lemma on_scroll_fresh s :
  timers_fresh s = true → timers_fresh (on_scroll s) = true.
Proof.
  rewrite !timers_fresh_spec. intros [Hids Hscroll].
  assert (∀ tm, tm ∈ timers (clearTimeout (scrollTimeout s) s) → tm ∈ timers s)
    as Hsub.
  { intros tm. destruct (scrollTimeout s); simpl; [|done].
    by intros [_ ?]%list_elem_of_filter. }
  assert (next_id (clearTimeout (scrollTimeout s) s) = next_id s) as Hnext
    by (by destruct (scrollTimeout s)).
  unfold on_scroll. simpl. rewrite Hnext. split.
  - intros tm [->|Hin]%elem_of_enqueue; [simpl; lia|].
    specialize (Hids tm (Hsub tm Hin)). lia.
  - intros id [= <-]. split; [lia|].
    intros tm [->|Hin]%elem_of_enqueue Heq; [done|].
    specialize (Hids tm (Hsub tm Hin)). lia.
Qed.

Lemma filter_keeps_other_site {A} (P : A → Prop)
    `{∀ x, Decision (P x)} (R : A → bool) (l : list A) :
  (∀ x, x ∈ l → ¬ P x → R x = false) →
  List.filter R (filter P l) = List.filter R l.
Proof.
  induction l as [|x l IH]; intros HR; [done|].
  rewrite filter_cons. simpl.
  assert (List.filter R (filter P l) = List.filter R l) as IH'
    by (apply IH; intros y Hy; apply HR; by right).
  destruct (decide (P x)) as [HP|HP]; simpl.
  - by rewrite IH'.
  - assert (R x = false) as -> by (apply HR; [by left|done]). done.
Qed.

(** With fresh ids the scroll listener cancels no observer timer. *)
Lemma on_scroll_observer_timers s :
  timers_fresh s = true → observer_timers (on_scroll s) = observer_timers s.
Proof.
  intros [Hids Hscroll]%timers_fresh_spec.
  unfold observer_timers, on_scroll. simpl.
  rewrite filter_enqueue_out by done.
  destruct (scrollTimeout s) as [id|] eqn:Hid; simpl; [|done].
  apply filter_keeps_other_site. intros tm Hin Heq.
  apply dec_stable in Heq. destruct (Hscroll id eq_refl) as [_ Hs].
  rewrite (Hs tm Hin Heq). done.
Qed.

Lemma filter_split_perm {A} (P : A → bool) (l : list A) :
  List.filter P l ++ List.filter (λ x, negb (P x)) l ≡ₚ l.
Proof.
  induction l as [|x l IH]; [done|]. simpl.
  destruct (P x); simpl.
  - by rewrite IH.
  - by rewrite <- Permutation_middle, IH.
Qed.

Lemma filter_enqueue_in_perm (P : timer → bool) tm l :
  P tm = true → List.filter P (enqueue tm l) ≡ₚ tm :: List.filter P l.
Proof.
  intros HP. induction l as [|x l IH]; simpl; [by rewrite HP|].
  destruct (timer_due tm <? timer_due x); simpl.
  - by rewrite HP.
  - destruct (P x); [|done]. by rewrite IH, Permutation_swap.
Qed.

Lemma site_part_of_fired (x : site) (l : list timer) :
  (List.filter (λ r : nat * site, bool_decide (r.2 = x))
     (map (λ tm, (timer_due tm, timer_site tm)) l)).*1 =
  map timer_due (List.filter (λ tm, bool_decide (timer_site tm = x)) l).
Proof.
  induction l as [|tm l IH]; [done|]. simpl.
  destruct (bool_decide (timer_site tm = x)); simpl; [f_equal|]; apply IH.
Qed.

Lemma on_scroll_observer_rescans s :
  observer_rescans (on_scroll s) = observer_rescans s.
Proof. unfold observer_rescans. by rewrite on_scroll_rescans. Qed.

Lemma on_mutations_observer_rescans batch s :
  observer_rescans (on_mutations batch s) = observer_rescans s.
Proof. unfold observer_rescans. by rewrite on_mutations_rescans. Qed.

Lemma on_mutations_observer_timers batch s :
  observer_timers (on_mutations batch s) ≡ₚ
  if shouldModify batch
  then Timer (next_id s) (now s + 100) FromObserver :: observer_timers s
  else observer_timers s.
Proof.
  unfold on_mutations, observer_timers. destruct (shouldModify batch); [|done].
  simpl. by apply filter_enqueue_in_perm.
Qed.

Section Runs.

Variable resolveURL : string → string.

Local Abbreviation fire := (fire resolveURL).
Local Abbreviation advance := (advance resolveURL).
Local Abbreviation run := (run resolveURL).
Local Abbreviation start := (start resolveURL).
Local Abbreviation modifySearchResults := (Rewriter.modifySearchResults resolveURL).

Lemma fired_next_id l s0 : next_id (foldl fire s0 l) = next_id s0.
Proof. revert s0. induction l as [|tm l IH]; intros s0; simpl; [done|by rewrite IH]. Qed.

Lemma advance_next_id t s : next_id (advance t s) = next_id s.
Proof. unfold Loop.advance. simpl. by rewrite fired_next_id. Qed.

Lemma advance_fresh t s :
  timers_fresh s = true → timers_fresh (advance t s) = true.
Proof.
  rewrite !timers_fresh_spec. intros [Hids Hscroll].
  assert (∀ tm, tm ∈ timers (advance t s) → tm ∈ timers s) as Hsub.
  { intros tm. rewrite advance_timers.
    by intros [?%list_elem_of_In _]%list_elem_of_In%filter_In. }
  rewrite advance_next_id, advance_scrollTimeout. split.
  - intros tm Hin. auto.
  - intros id Hid. destruct (Hscroll id Hid) as [Hlt Hs]. split; [done|].
    intros tm Hin. auto.
Qed.

Lemma run_fresh trace s :
  timers_fresh s = true → timers_fresh (run trace s) = true.
Proof.
  revert s. induction trace as [|[t ev] trace IH]; intros s Hf; [done|].
  cbn [Loop.run]. apply IH. destruct ev as [|batch]; cbn [handle].
  - by apply on_scroll_fresh, advance_fresh.
  - by apply on_mutations_fresh, advance_fresh.
Qed.

Lemma reachable_fresh trace d : timers_fresh (run trace (start d)) = true.
Proof. by apply run_fresh. Qed.

Lemma advance_observer_timers t s :
  observer_timers (advance t s) =
  List.filter (λ tm, negb (is_due t tm)) (observer_timers s).
Proof.
  unfold observer_timers. rewrite advance_timers. apply filter_filter_comm.
Qed.

Lemma advance_observer_rescans t s :
  observer_rescans (advance t s) =
  observer_rescans s ++ map timer_due (List.filter (is_due t) (observer_timers s)).
Proof.
  unfold observer_rescans, observer_timers.
  rewrite advance_rescans, List.filter_app, fmap_app, site_part_of_fired.
  by rewrite filter_filter_comm.
Qed.

(** The clock moving on keeps the observer's rescans and pending timers
    together the same. *)
Lemma advance_observer_total t s :
  observer_rescans (advance t s) ++ (timer_due <$> observer_timers (advance t s)) ≡ₚ
  observer_rescans s ++ (timer_due <$> observer_timers s).
Proof.
  rewrite advance_observer_rescans, advance_observer_timers, <- app_assoc.
  apply Permutation_app_head.
  change (map timer_due (List.filter (is_due t) (observer_timers s)))
    with (timer_due <$> List.filter (is_due t) (observer_timers s)).
  rewrite <- fmap_app. by rewrite filter_split_perm.
Qed.

Lemma handle_now ev s : now (handle ev s) = now s.
Proof. destruct ev; [apply on_scroll_now | apply on_mutations_now]. Qed.

Lemma run_observer_total trace :
  ∀ s, timers_fresh s = true → ordered (now s) trace = true →
    observer_rescans (run trace s) ++ (timer_due <$> observer_timers (run trace s)) ≡ₚ
    (observer_rescans s ++ (timer_due <$> observer_timers s)) ++
    ((λ t, t + 100) <$> batch_times trace).
Proof.
  induction trace as [|[t ev] trace IH]; intros s Hf Ho.
  - simpl. by rewrite app_nil_r.
  - simpl in Ho. apply andb_prop in Ho as [Hle Ho]. apply Nat.leb_le in Hle.
    assert (now (advance t s) = t) as Hnow by (rewrite advance_now; lia).
    pose proof (advance_fresh t s Hf) as Hf1.
    cbn [Loop.run]. rewrite IH.
    + rewrite <- (advance_observer_total t s).
      destruct ev as [|batch]; cbn [handle batch_times].
      * by rewrite on_scroll_observer_rescans, on_scroll_observer_timers.
      * rewrite on_mutations_observer_rescans, on_mutations_observer_timers, Hnow.
        destruct (shouldModify batch); [|done].
        rewrite !fmap_cons. simpl.
        rewrite <- !app_assoc. apply Permutation_app_head.
        by rewrite <- Permutation_middle.
    + destruct ev as [|batch]; cbn [handle].
      * by apply on_scroll_fresh.
      * by apply on_mutations_fresh.
    + by rewrite handle_now, Hnow.
Qed.

(** X7: as long as nothing but the script changes the page, every state
    the script reaches holds the document the first call produced: the
    deferred calls find nothing left to do. *)
Theorem X7_rescans_change_nothing trace d :
  document (run trace (start d)) = modifySearchResults d.
Proof. apply reachable_document. Qed.

(** X8: over a run whose events come in order of time, the rescans made
    for the observer together with its timers still pending are, up to
    order, one per batch that added nodes, each 100ms after its batch:
    none is lost, none is doubled. *)
Theorem X8_one_rescan_per_batch trace d :
  ordered 0 trace = true →
  observer_rescans (run trace (start d)) ++
    (timer_due <$> observer_timers (run trace (start d))) ≡ₚ
  (λ t, t + 100) <$> batch_times trace.
Proof.
  intros Ho. by rewrite (run_observer_total trace (start d)).
Qed.

(** X9: in every state the script reaches, a scroll event cancels no
    timer of the observer. *)
Theorem X9_scroll_keeps_observer_timers trace d :
  observer_timers (on_scroll (run trace (start d))) =
  observer_timers (run trace (start d)).
Proof. apply on_scroll_observer_timers, reachable_fresh. Qed.

(** *** The scroll debounce over any run *)

Lemma elem_of_scroll_timers_advance t s tm :
  tm ∈ scroll_timers (advance t s) → tm ∈ scroll_timers s.
Proof.
  rewrite advance_scroll_timers.
  by intros [?%list_elem_of_In _]%list_elem_of_In%filter_In.
Qed.

Lemma run_quiet trace :
  ∀ s h,
    scroll_owned s = true →
    ordered (now s) trace = true →
    (∀ t, t ∈ h → t ≤ now s) →
    (∀ tm, tm ∈ scroll_timers s →
       200 ≤ timer_due tm ∧ (timer_due tm - 200) ∈ h ∧
       ∀ t, t ∈ h → t ≤ timer_due tm - 200) →
    (∀ r, r ∈ scroll_rescans s → quiet h r ∧ r ≤ now s) →
    ∀ r, r ∈ scroll_rescans (run trace s) → quiet (h ++ scroll_times trace) r.
Proof.
  induction trace as [|[t ev] trace IH]; intros s h Hown Ho Hh Htm Hrs r Hr.
  - simpl in *. rewrite app_nil_r. by apply Hrs.
  - simpl in Ho. apply andb_prop in Ho as [Hle Ho]. apply Nat.leb_le in Hle.
    assert (now (advance t s) = t) as Hnow by (rewrite advance_now; lia).
    pose proof (advance_owned resolveURL t s Hown) as Hown1.
    assert (∀ r, r ∈ scroll_rescans (advance t s) → quiet h r ∧ r ≤ t) as Hrs1.
    { intros r'. rewrite advance_scroll_rescans, elem_of_app.
      intros [Hin|Hin].
      - destruct (Hrs r' Hin) as [Hq Hle']. split; [done|lia].
      - apply list_elem_of_fmap in Hin as (tm & -> & Hin).
        apply list_elem_of_In, filter_In in Hin as [Hin Hdue].
        apply list_elem_of_In in Hin. apply Nat.leb_le in Hdue.
        destruct (Htm tm Hin) as (H200 & Hmem & Hmax).
        split; [|done]. split_and!; [done..|].
        intros t' Ht' [Hlt _]. specialize (Hmax t' Ht'). lia. }
    assert (∀ t', t' ∈ h → t' ≤ t) as Hh1
      by (intros t' Ht'; specialize (Hh t' Ht'); lia).
    cbn [Loop.run] in Hr. destruct ev as [|batch]; cbn [handle scroll_times] in *.
    + replace (h ++ t :: scroll_times trace) with ((h ++ [t]) ++ scroll_times trace)
        by (by rewrite <- app_assoc).
      eapply (IH (on_scroll (advance t s))); [..|exact Hr].
      * by apply on_scroll_owned.
      * by rewrite on_scroll_now, Hnow.
      * rewrite on_scroll_now, Hnow. intros t' [Ht'|Ht']%elem_of_app; [auto|].
        apply list_elem_of_singleton in Ht' as ->. lia.
      * rewrite on_scroll_scroll_timers, Hnow by done.
        intros tm ->%list_elem_of_singleton. simpl.
        replace (t + 200 - 200) with t by lia. split_and!; [lia| |].
        -- apply elem_of_app. right. by left.
        -- intros t' [Ht'|Ht']%elem_of_app; [auto|].
           apply list_elem_of_singleton in Ht' as ->. lia.
      * rewrite on_scroll_scroll_rescans, on_scroll_now, Hnow.
        intros r' Hr'. destruct (Hrs1 r' Hr') as [(H200 & Hmem & Hgap) Hle'].
        split; [|done]. split_and!; [done| |].
        -- apply elem_of_app. by left.
        -- intros t' [Ht'|Ht']%elem_of_app; [by apply Hgap|].
           apply list_elem_of_singleton in Ht' as ->. lia.
    + eapply (IH (on_mutations batch (advance t s))); [..|exact Hr].
      * by apply on_mutations_owned.
      * by rewrite on_mutations_now, Hnow.
      * by rewrite on_mutations_now, Hnow.
      * rewrite on_mutations_scroll_timers. intros tm Hin.
        by apply Htm, (elem_of_scroll_timers_advance t).
      * by rewrite on_mutations_scroll_rescans, on_mutations_now, Hnow.
Qed.

(** X10: over a run whose events come in order of time, every rescan
    made for the scroll listener happens 200ms after a scroll event,
    with no scroll event in the 200ms between the two. *)
Theorem X10_scroll_rescans_after_quiet trace d r :
  ordered 0 trace = true →
  r ∈ scroll_rescans (run trace (start d)) →
  quiet (scroll_times trace) r.
Proof.
  intros Ho Hr.
  apply (run_quiet trace (start d) []); try done.
  - intros t Ht. by apply elem_of_nil in Ht.
  - intros tm Ht. by apply elem_of_nil in Ht.
  - intros r' Hr'. by apply elem_of_nil in Hr'.
Qed.

(** *** The page adds content *)

Lemma lookup_appendChild_new c p d parent :
  lookup_node p d = Some parent →
  lookup_path (p ++ [length (children parent)]) (appendChild c p d) =
    Some (elem c).
Proof.
  revert d. induction p as [|i p IH]; intros d; simpl.
  - intros [= <-]. by rewrite list_lookup_middle.
  - rewrite list_lookup_alter_eq.
    destruct (children d !! i) as [ch|]; [|done]. simpl. apply IH.
Qed.

Lemma lookup_appendChild_old c p d q e :
  lookup_path q d = Some e → lookup_path q (appendChild c p d) = Some e.
Proof.
  revert d q. induction p as [|i p IH]; intros d [|j q]; simpl; try done.
  - destruct (children d !! j) as [ch|] eqn:Hj; [|done].
    by rewrite (lookup_app_l_Some _ _ _ _ Hj).
  - destruct (decide (i = j)) as [->|Hne].
    + rewrite list_lookup_alter_eq.
      destruct (children d !! j) as [ch|]; [|done]. simpl. apply IH.
    + by rewrite list_lookup_alter_ne.
Qed.

Lemma fired_document_some l s0 :
  l ≠ [] →
  document (foldl fire s0 l) = modifySearchResults (document s0).
Proof.
  destruct l as [|tm l]; [done|]. intros _. simpl.
  by apply fired_document.
Qed.

(** X11: when the page appends a node and the observer is called with
    that change, the references that were there still lead to the same
    elements and the new element is as the page made it; it stays so
    while the clock is short of every pending timer; once the clock is
    100ms on, the document is the one [modifySearchResults] makes of the
    page with the new node, so the new element has been rewritten if
    that call writes to it. *)
Theorem X11_appended_content_rewritten_later s c p parent T :
  lookup_node p (document s) = Some parent →
  now s + 100 ≤ T →
  (∀ q e, lookup_path q (document s) = Some e →
          lookup_path q (document (page_appends c p s)) = Some e) ∧
  lookup_path (p ++ [length (children parent)])
              (document (page_appends c p s)) = Some (elem c) ∧
  (∀ t, (∀ tm, tm ∈ timers (page_appends c p s) → t < timer_due tm) →
        document (advance t (page_appends c p s)) =
        document (page_appends c p s)) ∧
  document (advance T (page_appends c p s)) =
    modifySearchResults (appendChild c p (document s)) ∧
  lookup_path (p ++ [length (children parent)])
              (document (advance T (page_appends c p s))) =
    Some (if decide (p ++ [length (children parent)] ∈
                     Rewriter.mutated resolveURL (appendChild c p (document s)))
          then Rewriter.open_in_new_tab (elem c) else elem c).
Proof.
  intros Hp HT.
  assert (document (page_appends c p s) = appendChild c p (document s)) as Hdoc
    by done.
  assert (document (advance T (page_appends c p s)) =
          modifySearchResults (appendChild c p (document s))) as Hlater.
  { rewrite <- Hdoc. unfold Loop.advance. simpl.
    rewrite fired_document_some; [done|].
    assert (Timer (next_id s) (now s + 100) FromObserver ∈
            List.filter (is_due T)
              (enqueue (Timer (next_id s) (now s + 100) FromObserver) (timers s)))
      as Hin.
    { apply list_elem_of_In, filter_In. split.
      - apply list_elem_of_In, elem_of_enqueue. by left.
      - by apply Nat.leb_le. }
    intros Hnil. rewrite Hnil in Hin. by apply elem_of_nil in Hin. }
  split_and!.
  - intros q e Hq. rewrite Hdoc. by apply lookup_appendChild_old.
  - rewrite Hdoc. by apply lookup_appendChild_new.
  - intros t Hnone. unfold Loop.advance. simpl.
    assert (List.filter (is_due t)
              (enqueue (Timer (next_id s) (now s + 100) FromObserver) (timers s))
            = []) as ->; [|done].
    match goal with |- ?l = [] => destruct l as [|tm l'] eqn:Hl; [done|] end.
    exfalso.
    assert (In tm (List.filter (is_due t)
              (enqueue (Timer (next_id s) (now s + 100) FromObserver) (timers s))))
      as Hin by (rewrite Hl; by left).
    apply filter_In in Hin as [Hin Hdue]. apply Nat.leb_le in Hdue.
    apply list_elem_of_In in Hin. specialize (Hnone tm Hin). lia.
  - done.
  - rewrite Hlater, RewriterSpec.modify_lookup.
    rewrite (lookup_appendChild_new c p (document s) parent Hp).
    by destruct (decide _).
Qed.

(** *** One scroll timer at most *)

Lemma length_filter_le {A} (P : A → bool) (l : list A) :
  length (List.filter P l) ≤ length l.
Proof.
  induction l as [|x l IH]; simpl; [done|]. destruct (P x); simpl; lia.
Qed.

Lemma run_one_scroll_timer trace :
  ∀ s, scroll_owned s = true → length (scroll_timers s) ≤ 1 →
       length (scroll_timers (run trace s)) ≤ 1.
Proof.
  induction trace as [|[t ev] trace IH]; intros s Hown Hlen; [done|].
  cbn [Loop.run].
  pose proof (advance_owned resolveURL t s Hown) as Hown1.
  assert (length (scroll_timers (advance t s)) ≤ 1) as Hlen1.
  { rewrite advance_scroll_timers.
    etrans; [apply length_filter_le | done]. }
  apply IH.
  - by apply handle_owned.
  - destruct ev as [|batch]; cbn [handle].
    + by rewrite on_scroll_scroll_timers.
    + by rewrite on_mutations_scroll_timers.
Qed.

(** X12: in every state the script reaches there is at most one scroll
    timer pending, and [scrollTimeout] holds its id. *)
Theorem X12_one_scroll_timer_pending trace d :
  length (scroll_timers (run trace (start d))) ≤ 1 ∧
  ∀ tm, tm ∈ scroll_timers (run trace (start d)) →
        scrollTimeout (run trace (start d)) = Some (timer_id tm).
Proof.
  split.
  - apply run_one_scroll_timer; [done | simpl; lia].
  - intros tm [Hin Hsite]%list_elem_of_In%filter_In.
    apply bool_decide_eq_true in Hsite. apply list_elem_of_In in Hin.
    pose proof (reachable_owned resolveURL trace d) as Hown.
    rewrite scroll_owned_spec in Hown. by apply Hown.
Qed.

End Runs.

End LoopMore.

(** ** The further properties with hypotheses, on the example page *)

Module MoreWitnesses.
Import Rewriter Loop Examples MoreExamples.

Ltac listed := apply list_elem_of_In; vm_compute; tauto.

Lemma X2_witness :
  ∃ link, lookup_path [3] page = Some link ∧
          localName link = "a" ∧ is_Some (getAttribute "href" link).
Proof.
  apply (RewriterMore.X2_only_anchors_with_href resolve page [3]). listed.
Defined.

Lemma X4_witness :
  ∃ link',
    lookup_path [3] (modifySearchResults resolve page) = Some link' ∧
    classList_contains marker link' = true ∧
    getAttribute "href" link' = getAttribute "href" image_link.
Proof.
  apply (RewriterMore.X4_candidates_marked resolve page [3] image_link).
  - reflexivity.
  - right. listed.
Defined.

Lemma X8_witness :
  observer_rescans (run resolve session (start resolve page)) ++
    (timer_due <$> observer_timers (run resolve session (start resolve page))) ≡ₚ
  (λ t, t + 100) <$> batch_times session.
Proof.
  apply (LoopMore.X8_one_rescan_per_batch resolve session page). reflexivity.
Defined.

Lemma X10_witness : quiet (scroll_times session) 250.
Proof.
  apply (LoopMore.X10_scroll_rescans_after_quiet resolve session page 250).
  - reflexivity.
  - listed.
Defined.

Lemma X11_witness :
  (∀ q e, lookup_path q (document (start resolve page)) = Some e →
          lookup_path q (document (page_appends late_result [] (start resolve page)))
            = Some e) ∧
  lookup_path [5] (document (page_appends late_result [] (start resolve page)))
    = Some late_link ∧
  (∀ t, (∀ tm, tm ∈ timers (page_appends late_result [] (start resolve page)) →
               t < timer_due tm) →
        document (advance resolve t (page_appends late_result [] (start resolve page))) =
        document (page_appends late_result [] (start resolve page))) ∧
  document (advance resolve 100 (page_appends late_result [] (start resolve page))) =
    modifySearchResults resolve
      (appendChild late_result [] (document (start resolve page))) ∧
  lookup_path [5]
    (document (advance resolve 100 (page_appends late_result [] (start resolve page)))) =
    Some (if decide ([5] ∈ mutated resolve
                       (appendChild late_result [] (document (start resolve page))))
          then open_in_new_tab late_link else late_link).
Proof.
  apply (LoopMore.X11_appended_content_rewritten_later resolve
           (start resolve page) late_result [] (document (start resolve page)) 100).
  - reflexivity.
  - simpl. lia.
Defined.

(** The late result is unchanged at 99ms and rewritten at 100ms. *)
Example late_link_at_99 :
  lookup_path [5]
    (document (advance resolve 99 (page_appends late_result [] (start resolve page))))
  = Some late_link.
Proof. reflexivity. Qed.

Example late_link_at_100 :
  lookup_path [5]
    (document (advance resolve 100 (page_appends late_result [] (start resolve page))))
  = Some (open_in_new_tab late_link).
Proof. reflexivity. Qed.

Example session_rescans :
  rescans (advance resolve 2000 (run resolve session (start resolve page))) =
  [ (230, FromObserver); (250, FromScroll); (800, FromScroll); (1000, FromObserver) ].
Proof. reflexivity. Qed.

End MoreWitnesses.
